(** * prometheus-neato-exporter: the bot selector, startup and collector loop

    A shallow embedding of [main.go].  The Go standard-library functions the
    program calls ([strings.Split], [strconv.ParseInt], [sort.Slice], ...)
    are modelled next to the program; the cloud client ([neato]) and the
    metric registry ([prometheus]) are the environment. *)

From Stdlib Require Import ZArith Floats Ascii String.
From stdpp Require Import gmap strings list pretty sorting.

Local Open Scope string_scope.
Local Open Scope list_scope.
Local Open Scope Z_scope.

(** ** Machine integers *)

Module Int64.
Definition min_int : Z := - 2 ^ 63.
Definition max_int : Z := 2 ^ 63 - 1.

(** Two's-complement wrap-around of a 64-bit signed integer. *)
Definition wrap (z : Z) : Z := (z + 2 ^ 63) mod 2 ^ 64 - 2 ^ 63.

(** Wrap-around of a 64-bit unsigned integer. *)
Definition uwrap (z : Z) : Z := z mod 2 ^ 64.

Definition in_range (z : Z) : Prop := min_int <= z <= max_int.
End Int64.

(** ** Go errors *)

Inductive ErrKind := ErrSyntax | ErrRange.

(** [*strconv.NumError]. *)
Record NumError := mkNumError { Func : string; Num : string; Err : ErrKind }.

(** The error values the program handles: a [*strconv.NumError], the result
    of [fmt.Errorf] whose format ends in [%w] (the text before the verb and
    the wrapped error), and an error that is only a message (the result of
    [fmt.Errorf] without [%w], or an error of the cloud client). *)
Inductive error :=
| numError (e : NumError)
| wrapError (prefix : string) (err : error)
| errorString (msg : string).

Definition ErrKind_Error (k : ErrKind) : string :=
  match k with
  | ErrSyntax => "invalid syntax"
  | ErrRange => "value out of range"
  end.

(** The [Error()] method.  [Quote] is [strconv.Quote]. *)
Fixpoint error_Error (Quote : string → string) (e : error) : string :=
  match e with
  | numError ne =>
      "strconv." +:+ Func ne +:+ ": " +:+ "parsing " +:+ Quote (Num ne)
        +:+ ": " +:+ ErrKind_Error (Err ne)
  | wrapError prefix err => prefix +:+ error_Error Quote err
  | errorString msg => msg
  end.

(** ** [strings] *)

Module Strings.
(** [strings.Split(s, sep)] for a separator of one byte: the pieces of [s]
    between the separators, at least one piece. *)
Fixpoint Split (s : string) (sep : ascii) : list string :=
  match s with
  | EmptyString => [""]
  | String c s' =>
      if Ascii.eqb c sep then "" :: Split s' sep
      else match Split s' sep with
           | p :: ps => String c p :: ps
           | [] => [String c ""]
           end
  end.
End Strings.

(** ** [strconv] *)

Module Strconv.
Definition lower (c : Z) : Z := Z.lor c 32.

(** The value of one byte as a digit, as the switch of [ParseUint] computes
    it when [base0] is false: decimal digits, then letters from 10. *)
Definition digit_val (c : ascii) : option Z :=
  let b := Z.of_N (N_of_ascii c) in
  if (48 <=? b) && (b <=? 57) then Some (b - 48)
  else if (97 <=? lower b) && (lower b <=? 122) then Some (lower b - 97 + 10)
  else None.

Definition maxUint64 : Z := 2 ^ 64 - 1.

(** The loop of [ParseUint(s, base, 64)] from the accumulator [n]. *)
Fixpoint ParseUint_loop (base : Z) (s : string) (n : Z) : Z * option ErrKind :=
  match s with
  | EmptyString => (n, None)
  | String c s' =>
      match digit_val c with
      | None => (0, Some ErrSyntax)
      | Some d =>
          if base <=? d then (0, Some ErrSyntax)
          else if maxUint64 / base + 1 <=? n then (maxUint64, Some ErrRange)
          else
            let n := Int64.uwrap (n * base) in
            let n1 := Int64.uwrap (n + d) in
            if (n1 <? n) || (maxUint64 <? n1) then (maxUint64, Some ErrRange)
            else ParseUint_loop base s' n1
      end
  end.

Definition ParseUint (s : string) (base : Z) : Z * option NumError :=
  match s with
  | EmptyString => (0, Some (mkNumError "ParseUint" s ErrSyntax))
  | _ =>
      match ParseUint_loop base s 0 with
      | (n, Some k) => (n, Some (mkNumError "ParseUint" s k))
      | (n, None) => (n, None)
      end
  end.

(** [strconv.ParseInt(s, base, 64)] for an explicit base between 2 and 36. *)
Definition ParseInt (s : string) (base : Z) : Z * option NumError :=
  match s with
  | EmptyString => (0, Some (mkNumError "ParseInt" s ErrSyntax))
  | String c0 rest =>
      let s0 := s in
      let '(neg, s) :=
        if Ascii.eqb c0 "+" then (false, rest)
        else if Ascii.eqb c0 "-" then (true, rest)
        else (false, s) in
      let '(un, err) := ParseUint s base in
      match err with
      | Some ne =>
          match Err ne with
          | ErrRange =>
              if negb neg then (2 ^ 63 - 1, Some (mkNumError "ParseInt" s0 ErrRange))
              else (- 2 ^ 63, Some (mkNumError "ParseInt" s0 ErrRange))
          | k => (0, Some (mkNumError "ParseInt" s0 k))
          end
      | None =>
          let cutoff := 2 ^ 63 in
          if negb neg && (cutoff <=? un) then
            (cutoff - 1, Some (mkNumError "ParseInt" s0 ErrRange))
          else if neg && (cutoff <? un) then
            (- cutoff, Some (mkNumError "ParseInt" s0 ErrRange))
          else
            let n := Int64.wrap un in
            let n := if neg then Int64.wrap (- n) else n in
            (n, None)
      end
  end.

Definition FormatBool (b : bool) : string := if b then "true" else "false".

(** [strconv.FormatInt(i, 10)]. *)
Definition FormatInt (i : Z) : string := pretty i.
End Strconv.

(** ** [sort] *)

Module Sort.
(** The swapper of a slice: exchange the elements at [i] and [j]. *)
Definition swap (l : list Z) (i j : nat) : list Z :=
  match l !! i, l !! j with
  | Some x, Some y => <[i:=y]> (<[j:=x]> l)
  | _, _ => l
  end.

(** The inner loop of [insertionSortLessFunc]:
    [for j := i; j > a && less(j, j-1); j-- { swap(j, j-1) }].
    The comparator is a closure: it receives the current contents of the
    slice together with the two indices. *)
Fixpoint sift (less : list Z → nat → nat → bool) (a j : nat) (l : list Z) : list Z :=
  match j with
  | O => l
  | S j' =>
      if (a <? j)%nat && less l j j' then sift less a j' (swap l j j') else l
  end.

(** [insertionSortLessFunc(data, a, b)]: [for i := a + 1; i < b; i++]. *)
Definition insertionSortLessFunc
    (less : list Z → nat → nat → bool) (l : list Z) (a b : nat) : list Z :=
  foldl (λ l i, sift less a i l) l (seq (a + 1) (b - (a + 1))).

Definition maxInsertion : nat := 12.

(** [sort.Slice(x, less)]: slices of at most [maxInsertion] elements are
    sorted by insertion; [pdqsort_long] stands for what the pattern-defeating
    quicksort of the library does on longer ones. *)
Definition Slice (pdqsort_long : (list Z → nat → nat → bool) → list Z → list Z)
    (x : list Z) (less : list Z → nat → nat → bool) : list Z :=
  if (length x <=? maxInsertion)%nat then insertionSortLessFunc less x 0 (length x)
  else pdqsort_long less x.
End Sort.

(** ** The bot selector *)

Section Selector.
(** The order in which [for n := range botMap] visits the keys of the map:
    Go leaves it unspecified. *)
Variable map_range : gset Z → list Z.
Variable pdqsort_long : (list Z → nat → nat → bool) → list Z → list Z.

(** The loop over [parts] (lines 121-130): [botMap] and [hasZero] after the
    loop, or the error of the first token that does not parse. *)
Fixpoint parseParts (parts : list string) (botMap : gset Z) (hasZero : bool)
    : gset Z * bool + error :=
  match parts with
  | [] => inl (botMap, hasZero)
  | p :: parts' =>
      match Strconv.ParseInt p 10 with
      | (_, Some err) =>
          inr (wrapError ("string '" +:+ p +:+ "' is not a valid digit: ") (numError err))
      | (n, None) =>
          let hasZero := if n =? 0 then true else hasZero in
          parseParts parts' ({[ n ]} ∪ botMap) hasZero
      end
  end.

(** [getBots]: the pair ([[]int], [error]) it returns; [None] is [nil].
    [int] is taken to be 64 bits wide, so that [int(n)] is [n]. *)
Definition getBots (s : string) : option (list Z) * option error :=
  if decide (s = "") then (None, None)
  else
    let parts := Strings.Split s "," in
    match parseParts parts ∅ false with
    | inr err => (None, Some err)
    | inl (botMap, hasZero) =>
        if hasZero && (1 <? size botMap)%nat then
          (None, Some (errorString "cannot have a list of indexes containing zero"))
        else if hasZero && (size botMap =? 0)%nat then
          (None, None)
        else
          let bots := map_range botMap in
          let bots := Sort.Slice pdqsort_long bots (λ _ i j, (i <? j)%nat) in
          (Some bots, None)
    end.
End Selector.


(** ** The cloud client ([neato]) *)

(** The enumerated attributes of a state report and their [String()]
    methods, which belong to the client library. *)
Class NeatoEnums := {
  StateT : Type;
  ActionT : Type;
  CategoryT : Type;
  NavigationModeT : Type;
  State_String : StateT → string;
  Action_String : ActionT → string;
  Category_String : CategoryT → string;
  NavigationMode_String : NavigationModeT → string
}.

(** [neato.Robot]: the identity attributes the exporter reads; a [nil]
    pointer is [None]. *)
Record Robot := mkRobot {
  Name : string;
  Serial : string;
  Model : option string;
  Firmware : option string;
  MACAddress : option string
}.

Record Details := mkDetails {
  IsCharging : bool;
  IsDocked : bool;
  IsScheduleEnabled : bool;
  DockHasBeenSeen : bool;
  Charge : Z
}.

Module Neato.
Record Cleaning `{NeatoEnums} := mkCleaning {
  Category : CategoryT;
  NavigationMode : NavigationModeT
}.

Record RobotState `{NeatoEnums} := mkRobotState {
  Error : option string;
  Alert : option string;
  State : StateT;
  Action : ActionT;
  Cleaning_ : Cleaning;
  Details_ : Details
}.

(** [CleanedArea] is a pointer to a float; the conversion [float64(...)] of
    line 101 leaves such a value as it is. *)
Record Map := mkMap { CleanedArea : option float }.
End Neato.

(** ** Startup ([main]) *)

(** How the process ends, or that it keeps serving. *)
Inductive Exit :=
| Fatal (msg : string)            (* log.Fatalf / log.Fatal: logged, exit status 1 *)
| PanicIndex (i : Z) (len : nat)  (* runtime error: index out of range *)
| Serving.

(** What startup has done when it ends or settles: the gauges registered, in
    order, and the device list the collector goroutine was started with. *)
Record Proc := mkProc {
  registered : list string;
  collector_started : option (list Robot);
  exit : Exit
}.

(** [allRobots[i]] for a machine integer [i]. *)
Definition slice_index (allRobots : list Robot) (i : Z) : option Robot :=
  if (0 <=? i) && (i <? Z.of_nat (length allRobots)) then allRobots !! Z.to_nat i
  else None.

(** The loop of lines 181-186 from the [robots] resolved so far. *)
Fixpoint resolve (allRobots : list Robot) (bots : list Z) (robots : list Robot)
    : Exit + list Robot :=
  match bots with
  | [] => inr robots
  | n :: bots' =>
      if Z.of_nat (length allRobots) <? n then
        inl (Fatal ("Robot number " +:+ pretty n +:+ " out of bounds, there are "
                      +:+ pretty (Z.of_nat (length allRobots)) +:+ " robots in total"))
      else
        match slice_index allRobots (Int64.wrap (n - 1)) with
        | None => inl (PanicIndex (Int64.wrap (n - 1)) (length allRobots))
        | Some r => resolve allRobots bots' (robots ++ [r])
        end
  end.

(** The three [prometheus.Register] calls of lines 190-198, in order. *)
Fixpoint registerAll (Quote : string → string) (Register : string → option error)
    (gauges : list (string * string)) (done : list string) : list string * option string :=
  match gauges with
  | [] => (done, None)
  | (name, what) :: gauges' =>
      match Register name with
      | Some err =>
          (done, Some ("Failed to register Neato " +:+ what +:+ " gauge: "
                         +:+ error_Error Quote err))
      | None => registerAll Quote Register gauges' (done ++ [name])
      end
  end.

Section Startup.
Variable Quote : string → string.
Variable map_range : gset Z → list Z.
Variable pdqsort_long : (list Z → nat → nat → bool) → list Z → list Z.

(** The environment of [main]: the flag values, the answer of
    [acc.Robots()], of each [prometheus.Register] and of
    [server.ListenAndServe] ([None]: it does not return). *)
Variable flagToken flagBots : string.
Variable acc_Robots : list Robot + error.
Variable Register : string → option error.
Variable ListenAndServe : option error.

Definition main : Proc :=
  if decide (flagToken = "") then mkProc [] None (Fatal "Empty authorization token")
  else
    match getBots map_range pdqsort_long flagBots with
    | (_, Some err) =>
        mkProc [] None (Fatal ("Failed to parse bot indexes: " +:+ error_Error Quote err))
    | (bots, None) =>
        match acc_Robots with
        | inr err => mkProc [] None (Fatal ("Failed to get robots: " +:+ error_Error Quote err))
        | inl allRobots =>
            if (length allRobots =? 0)%nat then mkProc [] None (Fatal "No bots found")
            else
              let robots :=
                match bots with
                | None => inr allRobots
                | Some bots => resolve allRobots bots []
                end in
              match robots with
              | inl e => mkProc [] None e
              | inr robots =>
                  match registerAll Quote Register
                          [("neato_battery", "battery"); ("neato_area", "area");
                           ("neato_state", "state")] [] with
                  | (done, Some msg) => mkProc done None (Fatal msg)
                  | (done, None) =>
                      match ListenAndServe with
                      | Some err => mkProc done (Some robots) (Fatal (error_Error Quote err))
                      | None => mkProc done (Some robots) Serving
                      end
                  end
              end
        end
    end.
End Startup.

(** ** The collector loop *)

(** [float64(n)] of an integer: the nearest double, ties to even. *)
Definition float64_of_int (n : Z) : float :=
  SF2Prim (SpecFloat.binary_normalize prec emax n 0 false).

(** What the collector does to the outside, in the order it does it. *)
Inductive Event :=
| EvState (r : Robot)    (* r.State() *)
| EvMaps (r : Robot)     (* r.Maps() *)
| EvLog (line : string)  (* log.Printf *)
| EvSleep (d : Z).       (* time.Sleep *)

(** The three gauge vectors (each a map from a tuple of label values to the
    value of that entry), the events so far and the number of calls made to
    the cloud service. *)
Record World := mkWorld {
  batteryGauge : gmap (list string) float;
  areaGauge : gmap (list string) float;
  stateGauge : gmap (list string) float;
  events : list Event;
  calls : nat
}.

Inductive Gauge := BatteryGauge | AreaGauge | StateGauge.

(** The collector is a state transformer over [World]. *)
Definition M (A : Type) : Type := World → A * World.

#[global] Instance M_ret : MRet M := λ A a w, (a, w).
#[global] Instance M_bind : MBind M := λ A B f m w, let '(a, w') := m w in f a w'.

Definition run {A} (m : M A) (w : World) : World := (m w).2.

Definition emit (e : Event) : M unit :=
  λ w, (tt, mkWorld (batteryGauge w) (areaGauge w) (stateGauge w) (events w ++ [e]) (calls w)).

Definition log_Printf (line : string) : M unit := emit (EvLog line).
Definition time_Sleep (d : Z) : M unit := emit (EvSleep d).

(** [g.WithLabelValues(lvs...).Set(v)]: upsert of the entry keyed by [lvs]. *)
Definition WithLabelValues_Set (g : Gauge) (lvs : list string) (v : float) : M unit :=
  λ w, (tt,
    match g with
    | BatteryGauge =>
        mkWorld (<[lvs := v]> (batteryGauge w)) (areaGauge w) (stateGauge w) (events w) (calls w)
    | AreaGauge =>
        mkWorld (batteryGauge w) (<[lvs := v]> (areaGauge w)) (stateGauge w) (events w) (calls w)
    | StateGauge =>
        mkWorld (batteryGauge w) (areaGauge w) (<[lvs := v]> (stateGauge w)) (events w) (calls w)
    end).

Section Collector.
Context `{NeatoEnums}.
Variable Quote : string → string.

(** [*flagInterval], in nanoseconds. *)
Variable flagInterval : Z.

(** The answers of the cloud service: what the [k]-th call made by the
    collector returns when it is [r.State()], and when it is [r.Maps()]. *)
Variable api_State : nat → Robot → Neato.RobotState + error.
Variable api_Maps : nat → Robot → list Neato.Map + error.

Definition call {A} (e : Event) (answer : nat → A) : M A :=
  λ w, (answer (calls w),
        mkWorld (batteryGauge w) (areaGauge w) (stateGauge w) (events w ++ [e]) (S (calls w))).

Definition Robot_State (r : Robot) : M (Neato.RobotState + error) :=
  call (EvState r) (λ k, api_State k r).

Definition Robot_Maps (r : Robot) : M (list Neato.Map + error) :=
  call (EvMaps r) (λ k, api_Maps k r).

(** The body of [for _, r := range robots] (lines 55-106); the [continue] of
    line 59 ends the body. *)
Definition loopBody (r : Robot) : M unit :=
  res ← Robot_State r;
  match res with
  | inr err =>
      log_Printf ("Failed to get state for robot '" +:+ Name r +:+ "': "
                    +:+ error_Error Quote err);;
      time_Sleep flagInterval
  | inl s =>
      let model := match Model r with Some m => m | None => "unknown" end in
      let firmware := match Firmware r with Some f => f | None => "unknown" end in
      let mac := match MACAddress r with Some a => a | None => "unknown" end in
      WithLabelValues_Set BatteryGauge [Name r; Serial r; model; firmware; mac]
        (float64_of_int (Charge (Neato.Details_ s)));;
      let errStr := match Neato.Error s with Some e => e | None => "unset" end in
      let alert := match Neato.Alert s with Some a => a | None => "unset" end in
      WithLabelValues_Set StateGauge
        [Name r; Serial r; model; firmware; mac;
         errStr; alert; State_String (Neato.State s); Action_String (Neato.Action s);
         Category_String (Neato.Category (Neato.Cleaning_ s));
         NavigationMode_String (Neato.NavigationMode (Neato.Cleaning_ s));
         Strconv.FormatBool (IsCharging (Neato.Details_ s));
         Strconv.FormatBool (IsDocked (Neato.Details_ s));
         Strconv.FormatBool (IsScheduleEnabled (Neato.Details_ s));
         Strconv.FormatBool (DockHasBeenSeen (Neato.Details_ s));
         Strconv.FormatInt (Charge (Neato.Details_ s))]
        1%float;;
      maps ← Robot_Maps r;
      match maps with
      | inr err =>
          log_Printf ("Failed to get maps for robot '" +:+ Name r +:+ "' (serial '"
                        +:+ Serial r +:+ "'): " +:+ error_Error Quote err)
      | inl [] =>
          log_Printf ("No maps found for robot '" +:+ Name r +:+ "': (serial: '"
                        +:+ Serial r +:+ "')")
      | inl (m0 :: _) =>
          match Neato.CleanedArea m0 with
          | Some a =>
              WithLabelValues_Set AreaGauge [Name r; Serial r; model; firmware; mac] a
          | None =>
              log_Printf ("No cleaned area is set for robo '" +:+ Name r +:+ "' (serial: '"
                            +:+ Serial r +:+ "')")
          end
      end
  end.

(** [for _, r := range robots { ... }]. *)
Fixpoint forRange (robots : list Robot) : M unit :=
  match robots with
  | [] => mret tt
  | r :: robots' => loopBody r;; forRange robots'
  end.

(** One iteration of the outer [for]: a pass over the devices, then the
    sleep of line 109. *)
Definition cycle (robots : list Robot) : M unit :=
  forRange robots;; time_Sleep flagInterval.

(** [collector], cut after [n] iterations of its endless loop. *)
Fixpoint collector (n : nat) (robots : list Robot) : M unit :=
  match n with
  | O => mret tt
  | S n' => cycle robots;; collector n' robots
  end.
End Collector.

(** The devices whose state was requested, in the order of the requests. *)
Definition polled (evs : list Event) : list Robot :=
  omap (λ e, match e with EvState r => Some r | _ => None end) evs.

(** ** The gauge vectors (lines 28-50) *)

Definition robotAttrs : list string := ["name"; "serial"; "model"; "firmware"; "mac"].

(** What [prometheus.NewGaugeVec] is given: the options and the label names. *)
Record GaugeVec := mkGaugeVec {
  gv_Name : string;
  gv_Help : string;
  gv_labelNames : list string
}.

Definition makeGauge (name help : string) : GaugeVec :=
  mkGaugeVec ("neato_" +:+ name) ("Neato - " +:+ help) robotAttrs.

(** The package variables [batteryGauge], [areaGauge] and [stateGauge]; the
    [append] of line 48 copies [robotAttrs], whose capacity is its length. *)
Definition gaugeVec (g : Gauge) : GaugeVec :=
  match g with
  | BatteryGauge => makeGauge "battery" "battery level (percentage)"
  | AreaGauge => makeGauge "area" "cleaned area (square meters)"
  | StateGauge =>
      mkGaugeVec "neato_state" "Neato - robot state"
        (robotAttrs ++ ["error"; "alert"; "state"; "action"; "category"; "navigation_mode";
                        "is_charging"; "is_docked"; "is_schedule_enabled";
                        "dock_has_been_seen"; "charge"])
  end.

(** The entries of a gauge vector in a world. *)
Definition entries (g : Gauge) (w : World) : gmap (list string) float :=
  match g with
  | BatteryGauge => batteryGauge w
  | AreaGauge => areaGauge w
  | StateGauge => stateGauge w
  end.

(** The values of the five identity labels of a device, as lines 61-73
    compute them. *)
Definition identity_labels (r : Robot) : list string :=
  [Name r; Serial r;
   match Model r with Some m => m | None => "unknown" end;
   match Firmware r with Some f => f | None => "unknown" end;
   match MACAddress r with Some a => a | None => "unknown" end].

(** The values of the sixteen labels of the state gauge, as lines 75-89
    compute them. *)
Definition state_labels `{NeatoEnums} (r : Robot) (s : Neato.RobotState) : list string :=
  identity_labels r ++
  [match Neato.Error s with Some e => e | None => "unset" end;
   match Neato.Alert s with Some a => a | None => "unset" end;
   State_String (Neato.State s); Action_String (Neato.Action s);
   Category_String (Neato.Category (Neato.Cleaning_ s));
   NavigationMode_String (Neato.NavigationMode (Neato.Cleaning_ s));
   Strconv.FormatBool (IsCharging (Neato.Details_ s));
   Strconv.FormatBool (IsDocked (Neato.Details_ s));
   Strconv.FormatBool (IsScheduleEnabled (Neato.Details_ s));
   Strconv.FormatBool (DockHasBeenSeen (Neato.Details_ s));
   Strconv.FormatInt (Charge (Neato.Details_ s))].

(** Every entry of every gauge vector has one value per label name; with
    another number of values [WithLabelValues] panics. *)
Definition well_labelled (w : World) : Prop :=
  ∀ g lvs, is_Some (entries g w !! lvs) → length lvs = length (gv_labelNames (gaugeVec g)).

(** ** Reading the event list *)

(** The devices whose maps were requested, the durations slept and the lines
    logged, each in the order of the events. *)
Definition maps_requested (evs : list Event) : list Robot :=
  omap (λ e, match e with EvMaps r => Some r | _ => None end) evs.

Definition sleeps (evs : list Event) : list Z :=
  omap (λ e, match e with EvSleep d => Some d | _ => None end) evs.

Definition logged (evs : list Event) : list string :=
  omap (λ e, match e with EvLog line => Some line | _ => None end) evs.

(** ** Concrete environments

    Two iteration orders a Go map can show, a stand-in for the library sort
    on long slices (never reached below: the lists are short), and a small
    fleet, used to run the model. *)

Definition range_descending (m : gset Z) : list Z := merge_sort Z.ge (elements m).
Definition range_ascending (m : gset Z) : list Z := merge_sort Z.le (elements m).
Definition pdqsort_id (less : list Z → nat → nat → bool) (l : list Z) : list Z := l.

Definition quote_bare (s : string) : string := s.

Definition world0 : World := mkWorld ∅ ∅ ∅ [] 0.

#[global] Instance enums_numbered : NeatoEnums := {|
  StateT := Z; ActionT := Z; CategoryT := Z; NavigationModeT := Z;
  State_String := pretty; Action_String := pretty;
  Category_String := pretty; NavigationMode_String := pretty
|}.

Definition robot_a : Robot := mkRobot "a" "sn-a" None (Some "4.5.3") None.
Definition robot_b : Robot := mkRobot "b" "sn-b" (Some "BotVacD7") None None.
Definition robot_c : Robot := mkRobot "c" "sn-c" None None (Some "00:11:22:33:44:55").
Definition fleet : list Robot := [robot_a; robot_b; robot_c].

Definition state_docked : Neato.RobotState :=
  Neato.mkRobotState _ None (Some "dustbin_full") 1 0 (Neato.mkCleaning _ 2 1)
    (mkDetails true true false true 87).

(** A service where the state of device "a" cannot be fetched and no device
    has a map. *)
Definition api_State_a_down (k : nat) (r : Robot) : Neato.RobotState + error :=
  if String.eqb (Name r) "a" then inr (errorString "timeout") else inl state_docked.
Definition api_Maps_none (k : nat) (r : Robot) : list Neato.Map + error := inl [].
Definition Register_ok (name : string) : option error := None.


(** A service where every state request succeeds and every device has one
    map with a cleaned area. *)
Definition api_State_up (k : nat) (r : Robot) : Neato.RobotState + error := inl state_docked.
Definition api_Maps_cleaned (k : nat) (r : Robot) : list Neato.Map + error :=
  inl [Neato.mkMap (Some 42%float)].
Definition Register_area_taken (name : string) : option error :=
  if String.eqb name "neato_area" then Some (errorString "duplicate metrics collector")
  else None.

(** * Properties *)

(** Unfolding of the program's functions, one step. *)
Ltac unfold_getBots := unfold getBots.
Ltac unfold_main := unfold main.
Ltac unfold_body :=
  unfold run, loopBody, Robot_State, Robot_Maps, call, log_Printf, time_Sleep,
    emit, WithLabelValues_Set, mbind, M_bind, mret, M_ret; cbn beta iota zeta.
Ltac unfold_forRange := cbn [forRange].
Ltac unfold_cycle := unfold cycle.
Ltac unfold_collector := cbn [collector].

(** ** Library facts *)

Lemma wrap_in_range z : Int64.in_range (Int64.wrap z).
Proof.
  unfold Int64.in_range, Int64.wrap, Int64.min_int, Int64.max_int.
  pose proof (Z.mod_pos_bound (z + 2 ^ 63) (2 ^ 64) ltac:(lia)). lia.
Qed.

Lemma Split_not_nil s sep : Strings.Split s sep ≠ [].
Proof. destruct s as [|c s]; simpl; [done|]. repeat case_match; done. Qed.

Lemma ParseInt_empty base : (Strconv.ParseInt "" base).2 ≠ None.
Proof. done. Qed.

Lemma ParseInt_in_range p base n :
  Strconv.ParseInt p base = (n, None) → Int64.in_range n.
Proof.
  unfold Strconv.ParseInt. intros Hp.
  repeat case_match; simplify_eq; auto using wrap_in_range.
Qed.

Lemma ParseInt_zero : Strconv.ParseInt "0" 10 = (0, None).
Proof. reflexivity. Qed.

(** The comparator of [getBots] never asks for a swap. *)
Lemma sift_index_less a j l : Sort.sift (λ _ i j, (i <? j)%nat) a j l = l.
Proof.
  destruct j as [|j]; simpl; [done|].
  replace (S j <? j)%nat with false by (symmetry; apply Nat.ltb_ge; lia).
  by rewrite andb_false_r.
Qed.

Lemma insertionSort_index_less l a b :
  Sort.insertionSortLessFunc (λ _ i j, (i <? j)%nat) l a b = l.
Proof.
  unfold Sort.insertionSortLessFunc.
  generalize (seq (a + 1) (b - (a + 1))) as idx.
  intros idx. revert l. induction idx as [|i idx IH]; intros l; simpl; [done|].
  by rewrite sift_index_less.
Qed.

Lemma Slice_index_less pdq l :
  (length l ≤ Sort.maxInsertion)%nat →
  Sort.Slice pdq l (λ _ i j, (i <? j)%nat) = l.
Proof.
  intros Hl. unfold Sort.Slice.
  destruct (Nat.leb_spec (length l) Sort.maxInsertion); [|lia].
  apply insertionSort_index_less.
Qed.

Section SelectorFacts.
Variable map_range : gset Z → list Z.
Variable pdqsort_long : (list Z → nat → nat → bool) → list Z → list Z.
Hypothesis map_range_perm : ∀ m, map_range m ≡ₚ elements m.
Hypothesis pdqsort_long_perm : ∀ less l, pdqsort_long less l ≡ₚ l.

Lemma Slice_perm l : Sort.Slice pdqsort_long l (λ _ i j, (i <? j)%nat) ≡ₚ l.
Proof.
  unfold Sort.Slice. case_match; [by rewrite insertionSort_index_less|done].
Qed.

Lemma hasZero_nil (hz : bool) : hz || bool_decide (0 ∈ @nil Z) = hz.
Proof. rewrite bool_decide_eq_false_2; [apply orb_false_r|]. by intros ?%elem_of_nil. Qed.

Lemma hasZero_cons (hz : bool) n (ns : list Z) :
  (if n =? 0 then true else hz) || bool_decide (0 ∈ ns) = hz || bool_decide (0 ∈ n :: ns).
Proof.
  destruct (Z.eqb_spec n 0) as [->|Hn].
  - rewrite (bool_decide_eq_true_2 (0 ∈ 0 :: ns)); [by rewrite orb_true_r|left].
  - f_equal. apply bool_decide_ext. rewrite elem_of_cons.
    split; [by right|]. by intros [?|?]; [congruence|].
Qed.

Lemma union_insert_swap (n : Z) (X m : gset Z) : X ∪ ({[n]} ∪ m) = {[n]} ∪ X ∪ m.
Proof. apply set_eq. intros x. rewrite !elem_of_union. tauto. Qed.

(** The token loop succeeds exactly on lists of tokens that all parse. *)
Lemma parseParts_inl parts : ∀ m hz m' hz',
  parseParts parts m hz = inl (m', hz') →
  ∃ ns, Forall2 (λ p n, Strconv.ParseInt p 10 = (n, None)) parts ns
        ∧ m' = list_to_set ns ∪ m
        ∧ hz' = hz || bool_decide (0 ∈ ns).
Proof.
  induction parts as [|p parts IH]; intros m hz m' hz' Hpp; cbn [parseParts] in Hpp.
  - simplify_eq. exists []. rewrite hasZero_nil, list_to_set_nil, (left_id_L ∅ (∪)).
    split_and!; [constructor|done..].
  - destruct (Strconv.ParseInt p 10) as [n [err|]] eqn:Hp; [done|].
    apply IH in Hpp as (ns & Hns & -> & ->).
    exists (n :: ns). rewrite hasZero_cons, list_to_set_cons.
    split_and!; [by constructor|apply union_insert_swap|done].
Qed.

Lemma parseParts_all_parse parts ns : ∀ m hz,
  Forall2 (λ p n, Strconv.ParseInt p 10 = (n, None)) parts ns →
  parseParts parts m hz = inl (list_to_set ns ∪ m, hz || bool_decide (0 ∈ ns)).
Proof.
  intros m hz Hall. revert m hz.
  induction Hall as [|p n parts ns Hp Hall IH]; intros m hz; cbn [parseParts].
  - by rewrite hasZero_nil, list_to_set_nil, (left_id_L ∅ (∪)).
  - rewrite Hp, IH, hasZero_cons, list_to_set_cons. do 2 f_equal.
    apply union_insert_swap.
Qed.

(** The token loop fails on the first token that does not parse. *)
Lemma parseParts_inr parts : ∀ m hz,
  Exists (λ p, (Strconv.ParseInt p 10).2 ≠ None) parts →
  ∃ pre p post v ne,
    parts = (pre ++ p :: post)
    ∧ Forall (λ q, (Strconv.ParseInt q 10).2 = None) pre
    ∧ Strconv.ParseInt p 10 = (v, Some ne)
    ∧ parseParts parts m hz
      = inr (wrapError ("string '" +:+ p +:+ "' is not a valid digit: ") (numError ne)).
Proof.
  induction parts as [|p parts IH]; intros m hz Hex; [by apply Exists_nil in Hex|].
  simpl. destruct (Strconv.ParseInt p 10) as [n [err|]] eqn:Hp.
  - exists [], p, parts, n, err. by split_and!.
  - apply Exists_cons in Hex as [Hex|Hex]; [by rewrite Hp in Hex|].
    destruct (IH ({[n]} ∪ m) (if n =? 0 then true else hz) Hex)
      as (pre & q & post & v & ne & -> & Hpre & Hq & ->).
    exists (p :: pre), q, post, v, ne. split_and!; try done.
    constructor; [by rewrite Hp|done].
Qed.
End SelectorFacts.


Lemma range_descending_perm m : range_descending m ≡ₚ elements m.
Proof. apply merge_sort_Permutation. Qed.
Lemma range_ascending_perm m : range_ascending m ≡ₚ elements m.
Proof. apply merge_sort_Permutation. Qed.

Lemma ParseInt_err p base v ne :
  Strconv.ParseInt p base = (v, Some ne) → Func ne = "ParseInt" ∧ Num ne = p.
Proof.
  unfold Strconv.ParseInt. intros Hp.
  repeat case_match; simplify_eq; done.
Qed.

Lemma Forall_parse_Forall2 parts :
  Forall (λ q, (Strconv.ParseInt q 10).2 = None) parts →
  ∃ ns, Forall2 (λ p n, Strconv.ParseInt p 10 = (n, None)) parts ns.
Proof.
  induction 1 as [|p parts Hp _ [ns IH]]; [by exists []|].
  destruct (Strconv.ParseInt p 10) as [n o] eqn:E. simpl in Hp. subst o.
  exists (n :: ns). by constructor.
Qed.

Lemma size_two (a b : Z) (m : gset Z) : a ≠ b → a ∈ m → b ∈ m → (1 < size m)%nat.
Proof.
  intros Hab Ha Hb.
  assert (Hsub : ({[a]} ∪ {[b]} : gset Z) ⊆ m).
  { intros x [->%elem_of_singleton| ->%elem_of_singleton]%elem_of_union; done. }
  apply subseteq_size in Hsub.
  rewrite size_union, !size_singleton in Hsub; [lia|].
  intros x ->%elem_of_singleton ?%elem_of_singleton. done.
Qed.

Section SelectorClaims.
Variable Quote : string → string.
Variable map_range : gset Z → list Z.
Variable pdqsort_long : (list Z → nat → nat → bool) → list Z → list Z.
Hypothesis map_range_perm : ∀ m, map_range m ≡ₚ elements m.
Hypothesis pdqsort_long_perm : ∀ less l, pdqsort_long less l ≡ₚ l.

Local Abbreviation getBots := (getBots map_range pdqsort_long).
Local Abbreviation parses p n := (Strconv.ParseInt p 10 = (n, None)).

(** What a returned selection list is made of. *)
Lemma getBots_Some s bots err :
  getBots s = (Some bots, err) →
  err = None ∧ s ≠ "" ∧
  ∃ ns, Forall2 (λ p n, parses p n) (Strings.Split s ",") ns
        ∧ bots ≡ₚ elements (list_to_set ns : gset Z).
Proof.
  unfold_getBots. intros Hg.
  destruct (decide (s = "")); [done|].
  destruct (parseParts _ _ _) as [[m hz]|e] eqn:Hpp; [|done].
  apply parseParts_inl in Hpp as (ns & Hns & -> & ->).
  repeat case_match; simplify_eq.
  split_and!; [done..|]. exists ns. split; [done|].
  by rewrite Slice_perm, map_range_perm, (right_id_L ∅ (∪)).
Qed.

(** A returned selection list holds each parsed value once: the keys of a
    map are distinct. *)
Lemma getBots_NoDup s bots err :
  getBots s = (Some bots, err) → NoDup bots.
Proof.
  intros (_ & _ & ns & _ & Hperm)%getBots_Some.
  rewrite Hperm. apply NoDup_elements.
Qed.

(** C2 at the code: a selection made only of tokens that read as zero is
    answered with the one-element list [[0]], not with the [nil] that stands
    for all devices; the test [len(botMap) == 0] of line 135 never holds. *)
Theorem getBots_only_zero s :
  s ≠ "" →
  Forall (λ p, parses p 0) (Strings.Split s ",") →
  getBots s = (Some [0], None).
Proof.
  intros Hs Hall. unfold_getBots.
  destruct (decide (s = "")); [done|].
  assert (Hns : Forall2 (λ p n, parses p n) (Strings.Split s ",")
                  (replicate (length (Strings.Split s ",")) 0)).
  { pose proof (Split_not_nil s ",") as Hne. revert Hall.
    generalize (Strings.Split s ","). induction 1; simpl; by constructor. }
  rewrite (parseParts_all_parse _ _ _ _ Hns).
  pose proof (Split_not_nil s ",") as Hne.
  destruct (Strings.Split s ",") as [|p parts]; [done|].
  assert (Hset : list_to_set (replicate (length (p :: parts)) 0) ∪ ∅ = ({[0]} : gset Z)).
  { apply set_eq. intros x. rewrite elem_of_union, elem_of_list_to_set, elem_of_singleton.
    simpl. rewrite elem_of_cons, elem_of_replicate, elem_of_empty.
    split; [by intros [[?|[? _]]|[]]|by intros ->; left; left]. }
  rewrite Hset, size_singleton. simpl.
  assert (Hr : map_range {[0]} = [0]).
  { apply Permutation_singleton_r. by rewrite map_range_perm, elements_singleton. }
  rewrite Hr. by rewrite Slice_index_less by (simpl; unfold Sort.maxInsertion; lia).
Qed.

(** C5: a selection with a token that reads as zero and a token that reads
    as a nonzero integer is answered with an error and no list; when every
    token parses, the error is the one of line 133. *)
Theorem getBots_zero_mixed s p q n :
  p ∈ Strings.Split s "," → parses p 0 →
  q ∈ Strings.Split s "," → parses q n → n ≠ 0 →
  ∃ err, getBots s = (None, Some err)
         ∧ (Forall (λ t, (Strconv.ParseInt t 10).2 = None) (Strings.Split s ",") →
            err = errorString "cannot have a list of indexes containing zero").
Proof.
  intros Hp Hp0 Hq Hqn Hn. unfold_getBots.
  destruct (decide (s = "")) as [->|_].
  { simpl in Hp. apply list_elem_of_singleton in Hp as ->. done. }
  destruct (parseParts _ _ _) as [[m hz]|e] eqn:Hpp.
  - apply parseParts_inl in Hpp as (ns & Hns & -> & ->).
    assert (H0 : 0 ∈ ns).
    { apply list_elem_of_lookup in Hp as [i Hi].
      destruct (Forall2_lookup_l _ _ _ _ _ Hns Hi) as (z & Hz & Hpz).
      rewrite Hp0 in Hpz. simplify_eq. by eapply list_elem_of_lookup_2. }
    assert (Hnn : n ∈ ns).
    { apply list_elem_of_lookup in Hq as [i Hi].
      destruct (Forall2_lookup_l _ _ _ _ _ Hns Hi) as (z & Hz & Hqz).
      rewrite Hqn in Hqz. simplify_eq. by eapply list_elem_of_lookup_2. }
    rewrite (bool_decide_eq_true_2 _ H0). simpl.
    assert (Hsz : (1 < size (list_to_set ns ∪ (∅ : gset Z)))%nat).
    { apply (size_two 0 n); [done|..]; rewrite elem_of_union, elem_of_list_to_set; by left. }
    apply Nat.ltb_lt in Hsz. rewrite Hsz. eauto.
  - eexists. split; [done|]. intros Hall.
    apply Forall_parse_Forall2 in Hall as [ns Hns].
    by rewrite (parseParts_all_parse _ _ _ _ Hns) in Hpp.
Qed.

(** C10: a non-empty selection with a token that does not parse is answered
    with an error and no list; the error wraps the [NumError] of the first
    such token and its message spells that token. *)
Theorem getBots_bad_token s :
  s ≠ "" →
  Exists (λ p, (Strconv.ParseInt p 10).2 ≠ None) (Strings.Split s ",") →
  ∃ pre p post v ne,
    Strings.Split s "," = (pre ++ p :: post)
    ∧ Forall (λ q, (Strconv.ParseInt q 10).2 = None) pre
    ∧ Strconv.ParseInt p 10 = (v, Some ne)
    ∧ getBots s
      = (None, Some (wrapError ("string '" +:+ p +:+ "' is not a valid digit: ")
                       (numError ne)))
    ∧ error_Error Quote
        (wrapError ("string '" +:+ p +:+ "' is not a valid digit: ") (numError ne))
      = ("string '" +:+ p +:+ "' is not a valid digit: ")
          +:+ ("strconv.ParseInt: parsing " +:+ Quote p +:+ ": " +:+ ErrKind_Error (Err ne)).
Proof.
  intros Hs Hex.
  destruct (parseParts_inr _ ∅ false Hex) as (pre & p & post & v & ne & Hsplit & Hpre & Hp & Hpp).
  exists pre, p, post, v, ne. split_and!; try done.
  - unfold_getBots. destruct (decide (s = "")); [done|]. by rewrite Hpp.
  - apply ParseInt_err in Hp as [Hf Hnum]. simpl. by rewrite Hf, Hnum.
Qed.
End SelectorClaims.

(** ** Startup *)

Lemma wrap_id z : Int64.in_range z → Int64.wrap z = z.
Proof.
  unfold Int64.in_range, Int64.wrap, Int64.min_int, Int64.max_int. intros Hz.
  rewrite Z.mod_small; lia.
Qed.

Lemma index_in_bounds (allRobots : list Robot) n :
  Int64.in_range n → 1 ≤ n ≤ Z.of_nat (length allRobots) →
  is_Some (slice_index allRobots (Int64.wrap (n - 1))).
Proof.
  intros Hr Hn. rewrite wrap_id by (unfold Int64.in_range, Int64.min_int, Int64.max_int in *; lia).
  unfold slice_index.
  destruct (Z.leb_spec 0 (n - 1)); [|lia].
  destruct (Z.ltb_spec (n - 1) (Z.of_nat (length allRobots))); [|lia].
  simpl. apply lookup_lt_is_Some. lia.
Qed.

Lemma index_non_positive (allRobots : list Robot) n :
  Int64.in_range n → n ≤ 0 → Z.of_nat (length allRobots) ≤ Int64.max_int →
  slice_index allRobots (Int64.wrap (n - 1)) = None.
Proof.
  intros Hr Hn Hlen. unfold slice_index.
  destruct (decide (n = Int64.min_int)) as [->|Hmin].
  - replace (Int64.wrap (Int64.min_int - 1)) with Int64.max_int by reflexivity.
    destruct (Z.ltb_spec Int64.max_int (Z.of_nat (length allRobots))); [lia|].
    by rewrite andb_false_r.
  - rewrite wrap_id by (unfold Int64.in_range, Int64.min_int, Int64.max_int in *; lia).
    by destruct (Z.leb_spec 0 (n - 1)); [lia|].
Qed.

(** The loop stops with the fatal error at the first index above the roster
    size when every index before it is a valid position. *)
Lemma resolve_fatal allRobots pre n post : ∀ robots,
  Forall (λ m, Int64.in_range m ∧ 1 ≤ m ≤ Z.of_nat (length allRobots)) pre →
  Z.of_nat (length allRobots) < n →
  resolve allRobots (pre ++ n :: post) robots
  = inl (Fatal ("Robot number " +:+ pretty n +:+ " out of bounds, there are "
                  +:+ pretty (Z.of_nat (length allRobots)) +:+ " robots in total")).
Proof.
  intros robots Hpre Hn. revert robots.
  induction Hpre as [|m pre [Hr Hm] _ IH]; intros robots; simpl.
  - by destruct (Z.ltb_spec (Z.of_nat (length allRobots)) n); [|lia].
  - destruct (Z.ltb_spec (Z.of_nat (length allRobots)) m); [lia|].
    destruct (index_in_bounds allRobots m Hr Hm) as [r ->]. apply IH.
Qed.

(** The loop runs into the index operation at the first index below one when
    every index before it is a valid position. *)
Lemma resolve_panic allRobots pre n post : ∀ robots,
  Forall (λ m, Int64.in_range m ∧ 1 ≤ m ≤ Z.of_nat (length allRobots)) pre →
  Int64.in_range n → n ≤ 0 → Z.of_nat (length allRobots) ≤ Int64.max_int →
  resolve allRobots (pre ++ n :: post) robots
  = inl (PanicIndex (Int64.wrap (n - 1)) (length allRobots)).
Proof.
  intros robots Hpre Hr Hn Hlen. revert robots.
  induction Hpre as [|m pre [Hmr Hm] _ IH]; intros robots; simpl.
  - destruct (Z.ltb_spec (Z.of_nat (length allRobots)) n); [lia|].
    by rewrite index_non_positive.
  - destruct (Z.ltb_spec (Z.of_nat (length allRobots)) m); [lia|].
    destruct (index_in_bounds allRobots m Hmr Hm) as [r ->]. apply IH.
Qed.

(** Splitting a list at the first element that satisfies a decidable
    property. *)
Lemma first_such {A} (P : A → Prop) `{∀ x, Decision (P x)} (l : list A) :
  Exists P l → ∃ pre x post, l = pre ++ x :: post ∧ Forall (λ y, ¬ P y) pre ∧ P x.
Proof.
  induction l as [|a l IH]; intros Hex; [by apply Exists_nil in Hex|].
  destruct (decide (P a)) as [Ha|Ha].
  - by exists [], a, l.
  - apply Exists_cons in Hex as [?|Hex]; [done|].
    destruct (IH Hex) as (pre & x & post & -> & Hpre & Hx).
    exists (a :: pre), x, post. split_and!; [done| |done]. by constructor.
Qed.

Section StartupClaims.
Variable Quote : string → string.
Variable map_range : gset Z → list Z.
Variable pdqsort_long : (list Z → nat → nat → bool) → list Z → list Z.
Hypothesis map_range_perm : ∀ m, map_range m ≡ₚ elements m.
Hypothesis pdqsort_long_perm : ∀ less l, pdqsort_long less l ≡ₚ l.

Local Abbreviation getBots := (getBots map_range pdqsort_long).
Local Abbreviation main := (main Quote map_range pdqsort_long).

(** Every index of a returned selection list is a 64-bit integer. *)
Lemma getBots_in_range s bots err :
  getBots s = (Some bots, err) → Forall Int64.in_range bots.
Proof.
  intros (_ & _ & ns & Hns & Hperm)%(getBots_Some _ _ map_range_perm pdqsort_long_perm).
  apply Forall_forall. intros n Hn.
  rewrite Hperm, elem_of_elements, elem_of_list_to_set in Hn.
  apply list_elem_of_lookup in Hn as [i Hi].
  destruct (Forall2_lookup_r _ _ _ _ _ Hns Hi) as (p & _ & Hp).
  by eapply ParseInt_in_range.
Qed.

(** [main] up to the device-resolution loop. *)
Lemma main_reaches_resolve flagToken flagBots allRobots Register ListenAndServe bots e :
  flagToken ≠ "" →
  getBots flagBots = (Some bots, None) →
  allRobots ≠ [] →
  resolve allRobots bots [] = inl e →
  main flagToken flagBots (inl allRobots) Register ListenAndServe = mkProc [] None e.
Proof.
  intros Htok Hbots Hall Hres. unfold_main.
  destruct (decide (flagToken = "")); [done|]. rewrite Hbots.
  destruct allRobots as [|r0 allRobots]; [done|]. simpl length. simpl Nat.eqb. cbv iota.
  by rewrite Hres.
Qed.

(** C6, amended: when every selected index is at least 1 and one of them
    exceeds the size of the fetched roster, startup ends in a logged fatal
    error with no gauge registered and the collector not started; when the
    token is given and the roster is not empty, it is the out-of-bounds error
    for such an index. *)
Theorem main_index_exceeds_roster
    flagToken flagBots allRobots Register ListenAndServe bots :
  getBots flagBots = (Some bots, None) →
  (∀ n, n ∈ bots → 1 ≤ n) →
  (∃ n, n ∈ bots ∧ Z.of_nat (length allRobots) < n) →
  (∃ msg, main flagToken flagBots (inl allRobots) Register ListenAndServe
          = mkProc [] None (Fatal msg))
  ∧ (flagToken ≠ "" → allRobots ≠ [] →
     ∃ n, n ∈ bots ∧ Z.of_nat (length allRobots) < n ∧
       main flagToken flagBots (inl allRobots) Register ListenAndServe
       = mkProc [] None
           (Fatal ("Robot number " +:+ pretty n +:+ " out of bounds, there are "
                     +:+ pretty (Z.of_nat (length allRobots)) +:+ " robots in total"))).
Proof.
  intros Hbots Hpos Hex.
  assert (Hmain : flagToken ≠ "" → allRobots ≠ [] →
     ∃ n, n ∈ bots ∧ Z.of_nat (length allRobots) < n ∧
       main flagToken flagBots (inl allRobots) Register ListenAndServe
       = mkProc [] None
           (Fatal ("Robot number " +:+ pretty n +:+ " out of bounds, there are "
                     +:+ pretty (Z.of_nat (length allRobots)) +:+ " robots in total"))).
  { intros Htok Hall.
    pose proof (getBots_in_range _ _ _ Hbots) as Hrange.
    assert (Hex' : Exists (λ n, Z.of_nat (length allRobots) < n) bots).
    { apply Exists_exists. destruct Hex as (n & ? & ?). eauto. }
    apply first_such in Hex' as (pre & n & post & -> & Hpre & Hn); [|apply _].
    exists n. split_and!; [apply elem_of_app; right; left|done|].
    eapply main_reaches_resolve; [done..|].
    apply resolve_fatal; [|done].
    apply Forall_forall. intros m Hm. split_and!.
    - eapply Forall_forall in Hrange; [done|]. apply elem_of_app; by left.
    - apply Hpos. apply elem_of_app; by left.
    - eapply Forall_forall in Hpre; [|done]. simpl in Hpre. lia. }
  split; [|done].
  destruct (decide (flagToken = "")) as [Htok|Htok].
  { unfold_main. rewrite decide_True by done. eauto. }
  destruct allRobots as [|r0 allRobots].
  { unfold_main. rewrite decide_False, Hbots by done. eauto. }
  destruct (Hmain Htok) as (n & _ & _ & ->); [done|eauto].
Qed.

(** C4, amended: when the selection list holds an index below 1 and no
    index before the first such one exceeds the size of the roster, startup
    passes the bounds check with it and ends in the index operation
    [allRobots[n-1]] out of range, not in the logged fatal error. *)
Theorem main_index_below_one
    flagToken flagBots allRobots Register ListenAndServe pre n post :
  flagToken ≠ "" →
  getBots flagBots = (Some (pre ++ n :: post), None) →
  allRobots ≠ [] →
  Z.of_nat (length allRobots) ≤ Int64.max_int →
  Forall (λ m, 1 ≤ m ≤ Z.of_nat (length allRobots)) pre →
  n ≤ 0 →
  ¬ (Z.of_nat (length allRobots) < n) ∧
  slice_index allRobots (Int64.wrap (n - 1)) = None ∧
  main flagToken flagBots (inl allRobots) Register ListenAndServe
  = mkProc [] None (PanicIndex (Int64.wrap (n - 1)) (length allRobots)).
Proof.
  intros Htok Hbots Hall Hlen Hpre Hn.
  pose proof (getBots_in_range _ _ _ Hbots) as Hrange.
  apply Forall_app in Hrange as [Hrpre [Hrn _]%Forall_cons].
  split_and!; [lia|by apply index_non_positive|].
  eapply main_reaches_resolve; [done..|].
  apply resolve_panic; [|done..].
  apply Forall_forall. intros m Hm. split.
  - by eapply Forall_forall in Hrpre.
  - by eapply Forall_forall in Hpre.
Qed.
End StartupClaims.

(** ** The collector loop *)

Lemma run_bind {A B} (m : M A) (f : A → M B) w :
  run (m ≫= f) w = run (f (m w).1) (m w).2.
Proof. unfold run, mbind, M_bind. by destruct (m w). Qed.

Lemma polled_app evs1 evs2 : polled (evs1 ++ evs2) = polled evs1 ++ polled evs2.
Proof. apply omap_app. Qed.

Section CollectorClaims.
Context `{NeatoEnums}.
Variable Quote : string → string.
Variable flagInterval : Z.
Variable api_State : nat → Robot → Neato.RobotState + error.
Variable api_Maps : nat → Robot → list Neato.Map + error.

Local Abbreviation loopBody := (loopBody Quote flagInterval api_State api_Maps).
Local Abbreviation forRange := (forRange Quote flagInterval api_State api_Maps).
Local Abbreviation cycle := (cycle Quote flagInterval api_State api_Maps).
Local Abbreviation collector := (collector Quote flagInterval api_State api_Maps).

Lemma forRange_cons r robots w :
  run (forRange (r :: robots)) w = run (forRange robots) (run (loopBody r) w).
Proof. unfold_forRange. apply run_bind. Qed.

Lemma forRange_app robots1 robots2 : ∀ w,
  run (forRange (robots1 ++ robots2)) w = run (forRange robots2) (run (forRange robots1) w).
Proof.
  induction robots1 as [|r robots1 IH]; intros w; [done|].
  by rewrite <-app_comm_cons, !forRange_cons, IH.
Qed.

(** A pass over the devices from position [k] on. *)
Lemma forRange_from robots k r w :
  robots !! k = Some r →
  run (forRange robots) w
  = run (forRange (drop (S k) robots))
      (run (loopBody r) (run (forRange (take k robots)) w)).
Proof.
  intros Hk. rewrite <-(take_drop_middle robots k r Hk) at 1.
  by rewrite forRange_app, forRange_cons.
Qed.

(** What the body does when the state request fails. *)
Lemma loopBody_failure r err w :
  api_State (calls w) r = inr err →
  run (loopBody r) w
  = mkWorld (batteryGauge w) (areaGauge w) (stateGauge w)
      (events w ++ [EvState r;
                    EvLog ("Failed to get state for robot '" +:+ Name r +:+ "': "
                             +:+ error_Error Quote err);
                    EvSleep flagInterval])
      (S (calls w)).
Proof.
  intros Herr. unfold_body. rewrite Herr. cbn. by rewrite <-!app_assoc.
Qed.

(** The body requests the state of its device once, whatever happens. *)
Lemma polled_loopBody r w :
  polled (events (run (loopBody r) w)) = polled (events w) ++ [r].
Proof.
  unfold_body. destruct (api_State (calls w) r) as [s|err]; cbn.
  - destruct (api_Maps (S (calls w)) r) as [[|m0 ms]|err]; cbn;
      [| destruct (Neato.CleanedArea m0); cbn |];
      rewrite ?polled_app; cbn; by rewrite ?app_nil_r, <-?app_assoc.
  - rewrite !polled_app. cbn. by rewrite !app_nil_r.
Qed.

(** A pass requests the state of every device of the list, once and in the
    order of the list. *)
Lemma polled_forRange robots : ∀ w,
  polled (events (run (forRange robots) w)) = polled (events w) ++ robots.
Proof.
  induction robots as [|r robots IH]; intros w.
  - cbn. by rewrite app_nil_r.
  - by rewrite forRange_cons, IH, polled_loopBody, <-app_assoc.
Qed.

Lemma polled_cycle robots w :
  polled (events (run (cycle robots) w)) = polled (events w) ++ robots.
Proof.
  unfold_cycle. rewrite run_bind.
  unfold run at 1, time_Sleep, emit. cbn. fold (run (forRange robots) w).
  by rewrite polled_app, polled_forRange, app_nil_r.
Qed.

(** [n] iterations of the endless loop make [n] passes over the devices. *)
Lemma polled_collector n robots : ∀ w,
  polled (events (run (collector n robots) w))
  = polled (events w) ++ concat (replicate n robots).
Proof.
  induction n as [|n IH]; intros w; unfold_collector.
  - cbn. by rewrite app_nil_r.
  - rewrite run_bind. fold (run (cycle robots) w).
    by rewrite IH, polled_cycle, <-app_assoc.
Qed.

(** C1, amended: when the state request for the device at position [k]
    fails, the body logs the failure with the name of the device, sleeps for
    the interval and touches no gauge; the pass then goes on with the devices
    after position [k], so that every device of the list is polled in that
    same cycle. *)
Theorem state_failure_skips_one_device robots k r err w :
  robots !! k = Some r →
  api_State (calls (run (forRange (take k robots)) w)) r = inr err →
  run (loopBody r) (run (forRange (take k robots)) w)
  = mkWorld (batteryGauge (run (forRange (take k robots)) w))
      (areaGauge (run (forRange (take k robots)) w))
      (stateGauge (run (forRange (take k robots)) w))
      (events (run (forRange (take k robots)) w)
         ++ [EvState r;
             EvLog ("Failed to get state for robot '" +:+ Name r +:+ "': "
                      +:+ error_Error Quote err);
             EvSleep flagInterval])
      (S (calls (run (forRange (take k robots)) w)))
  ∧ run (forRange robots) w
    = run (forRange (drop (S k) robots))
        (run (loopBody r) (run (forRange (take k robots)) w))
  ∧ polled (events (run (cycle robots) w)) = polled (events w) ++ robots.
Proof.
  intros Hk Herr. split_and!.
  - by apply loopBody_failure.
  - by apply forRange_from.
  - apply polled_cycle.
Qed.

(** C8: when the state request succeeds, the body sets the battery entry of
    the device's identity tuple to the charge as a float, and the state entry
    of the identity tuple followed by the state-derived labels to 1. *)
Theorem state_success_sets_gauges r s w :
  api_State (calls w) r = inl s →
  batteryGauge (run (loopBody r) w)
    !! [Name r; Serial r; default "unknown" (Model r); default "unknown" (Firmware r);
        default "unknown" (MACAddress r)]
  = Some (float64_of_int (Charge (Neato.Details_ s)))
  ∧ stateGauge (run (loopBody r) w)
      !! [Name r; Serial r; default "unknown" (Model r); default "unknown" (Firmware r);
          default "unknown" (MACAddress r);
          default "unset" (Neato.Error s); default "unset" (Neato.Alert s);
          State_String (Neato.State s); Action_String (Neato.Action s);
          Category_String (Neato.Category (Neato.Cleaning_ s));
          NavigationMode_String (Neato.NavigationMode (Neato.Cleaning_ s));
          Strconv.FormatBool (IsCharging (Neato.Details_ s));
          Strconv.FormatBool (IsDocked (Neato.Details_ s));
          Strconv.FormatBool (IsScheduleEnabled (Neato.Details_ s));
          Strconv.FormatBool (DockHasBeenSeen (Neato.Details_ s));
          Strconv.FormatInt (Charge (Neato.Details_ s))]
    = Some 1%float.
Proof.
  intros Hs. unfold_body. rewrite Hs. cbn.
  destruct (api_Maps (S (calls w)) r) as [[|m0 ms]|err]; cbn;
    [| destruct (Neato.CleanedArea m0); cbn |];
    split; apply lookup_insert_eq.
Qed.

(** C9: the labels of the entries the body writes render an absent model,
    firmware or MAC address as "unknown" and an absent error or alert code as
    "unset", and a present attribute as its value. *)
Theorem absent_attributes_rendered r s w :
  api_State (calls w) r = inl s →
  batteryGauge (run (loopBody r) w)
  = <[ [Name r; Serial r; default "unknown" (Model r); default "unknown" (Firmware r);
        default "unknown" (MACAddress r)]
       := float64_of_int (Charge (Neato.Details_ s)) ]> (batteryGauge w)
  ∧ (∃ rest, length rest = 9%nat ∧
       stateGauge (run (loopBody r) w)
       = <[ [Name r; Serial r; default "unknown" (Model r);
             default "unknown" (Firmware r); default "unknown" (MACAddress r);
             default "unset" (Neato.Error s); default "unset" (Neato.Alert s)] ++ rest
            := 1%float ]> (stateGauge w))
  ∧ (areaGauge (run (loopBody r) w) = areaGauge w
     ∨ ∃ a, areaGauge (run (loopBody r) w)
            = <[ [Name r; Serial r; default "unknown" (Model r);
                  default "unknown" (Firmware r); default "unknown" (MACAddress r)]
                 := a ]> (areaGauge w)).
Proof.
  intros Hs. unfold_body. rewrite Hs. cbn.
  destruct (api_Maps (S (calls w)) r) as [[|m0 ms]|err]; cbn;
    [| destruct (Neato.CleanedArea m0) as [a|]; cbn |];
    (split_and!; [done|eexists; split; [|done]; done|eauto]).
Qed.

(** C7: when the map request fails, returns no map, or returns a first map
    without a cleaned area, the body leaves the area gauge as it was, writes
    one log line, changes no battery or state entry other than the two of
    this device, and the pass goes on: the devices after this one are
    polled. *)
Theorem maps_absent_keeps_area pre r rest s w0 :
  api_State (calls (run (forRange pre) w0)) r = inl s →
  ((∃ err, api_Maps (S (calls (run (forRange pre) w0))) r = inr err)
   ∨ api_Maps (S (calls (run (forRange pre) w0))) r = inl []
   ∨ (∃ m0 ms, api_Maps (S (calls (run (forRange pre) w0))) r = inl (m0 :: ms)
               ∧ Neato.CleanedArea m0 = None)) →
  areaGauge (run (loopBody r) (run (forRange pre) w0))
  = areaGauge (run (forRange pre) w0)
  ∧ events (run (loopBody r) (run (forRange pre) w0))
    = events (run (forRange pre) w0)
        ++ [EvState r; EvMaps r;
            EvLog (match api_Maps (S (calls (run (forRange pre) w0))) r with
                   | inr err =>
                       "Failed to get maps for robot '" +:+ Name r +:+ "' (serial '"
                         +:+ Serial r +:+ "'): " +:+ error_Error Quote err
                   | inl [] =>
                       "No maps found for robot '" +:+ Name r +:+ "': (serial: '"
                         +:+ Serial r +:+ "')"
                   | inl (_ :: _) =>
                       "No cleaned area is set for robo '" +:+ Name r +:+ "' (serial: '"
                         +:+ Serial r +:+ "')"
                   end)]
  ∧ (∀ lvs,
       lvs ≠ [Name r; Serial r; default "unknown" (Model r);
              default "unknown" (Firmware r); default "unknown" (MACAddress r)] →
       batteryGauge (run (loopBody r) (run (forRange pre) w0)) !! lvs
       = batteryGauge (run (forRange pre) w0) !! lvs)
  ∧ (∀ lvs,
       lvs ≠ [Name r; Serial r; default "unknown" (Model r);
              default "unknown" (Firmware r); default "unknown" (MACAddress r);
              default "unset" (Neato.Error s); default "unset" (Neato.Alert s);
              State_String (Neato.State s); Action_String (Neato.Action s);
              Category_String (Neato.Category (Neato.Cleaning_ s));
              NavigationMode_String (Neato.NavigationMode (Neato.Cleaning_ s));
              Strconv.FormatBool (IsCharging (Neato.Details_ s));
              Strconv.FormatBool (IsDocked (Neato.Details_ s));
              Strconv.FormatBool (IsScheduleEnabled (Neato.Details_ s));
              Strconv.FormatBool (DockHasBeenSeen (Neato.Details_ s));
              Strconv.FormatInt (Charge (Neato.Details_ s))] →
       stateGauge (run (loopBody r) (run (forRange pre) w0)) !! lvs
       = stateGauge (run (forRange pre) w0) !! lvs)
  ∧ run (forRange (pre ++ r :: rest)) w0
    = run (forRange rest) (run (loopBody r) (run (forRange pre) w0))
  ∧ polled (events (run (forRange (pre ++ r :: rest)) w0))
    = polled (events w0) ++ pre ++ r :: rest.
Proof.
  intros Hs Hmaps. set (w := run (forRange pre) w0) in *.
  assert (Hpass : run (forRange (pre ++ r :: rest)) w0
                  = run (forRange rest) (run (loopBody r) w)).
  { by rewrite forRange_app, forRange_cons. }
  split_and!; [..|done|apply polled_forRange]; unfold_body; rewrite Hs; cbn.
  - destruct Hmaps as [[err ->]|[->|(m0 & ms & -> & ->)]]; done.
  - destruct Hmaps as [[err ->]|[->|(m0 & ms & -> & ->)]]; cbn; by rewrite <-!app_assoc.
  - intros lvs Hne.
    destruct Hmaps as [[err ->]|[->|(m0 & ms & -> & ->)]]; cbn; by apply lookup_insert_ne.
  - intros lvs Hne.
    destruct Hmaps as [[err ->]|[->|(m0 & ms & -> & ->)]]; cbn;
      by apply lookup_insert_ne.
Qed.
End CollectorClaims.

(** ** Runs on concrete inputs *)

Lemma pdqsort_id_perm less l : pdqsort_id less l ≡ₚ l.
Proof. done. Qed.

(** The selection "0,0" against a map that hands out its keys in ascending
    order. *)
Lemma getBots_only_zero_witness :
  getBots range_ascending pdqsort_id "0,0" = (Some [0], None).
Proof.
  apply (getBots_only_zero range_ascending pdqsort_id range_ascending_perm "0,0").
  - discriminate.
  - cbn. repeat constructor.
Defined.

(** C3 at the code: the comparator of line 145 compares the two positions,
    not the two elements, so the keys stay in the order the map handed them
    out.  With the keys of "1,2" handed out as 2, 1 the result is not
    ascending. *)
Theorem getBots_not_sorted :
  getBots range_descending pdqsort_id "1,2" = (Some [2; 1], None)
  ∧ ¬ Sorted Z.le [2; 1].
Proof.
  split; [vm_compute; reflexivity|].
  intros Hs. inversion Hs as [|? ? _ Hhd]; subst.
  inversion Hhd as [|? ? Hle]; subst. lia.
Qed.

Lemma getBots_zero_mixed_witness :
  ∃ err, getBots range_ascending pdqsort_id "0,1" = (None, Some err)
         ∧ (Forall (λ t, (Strconv.ParseInt t 10).2 = None) (Strings.Split "0,1" ",") →
            err = errorString "cannot have a list of indexes containing zero").
Proof.
  apply (getBots_zero_mixed range_ascending pdqsort_id "0,1" "0" "1" 1).
  - vm_compute. left.
  - reflexivity.
  - vm_compute. right. left.
  - reflexivity.
  - lia.
Defined.

Lemma getBots_bad_token_witness :
  ∃ pre p post v ne,
    Strings.Split "1,x2,3" "," = pre ++ p :: post
    ∧ Forall (λ q, (Strconv.ParseInt q 10).2 = None) pre
    ∧ Strconv.ParseInt p 10 = (v, Some ne)
    ∧ getBots range_ascending pdqsort_id "1,x2,3"
      = (None, Some (wrapError ("string '" +:+ p +:+ "' is not a valid digit: ")
                       (numError ne)))
    ∧ error_Error quote_bare
        (wrapError ("string '" +:+ p +:+ "' is not a valid digit: ") (numError ne))
      = ("string '" +:+ p +:+ "' is not a valid digit: ")
          +:+ ("strconv.ParseInt: parsing " +:+ quote_bare p +:+ ": "
                 +:+ ErrKind_Error (Err ne)).
Proof.
  apply (getBots_bad_token quote_bare range_ascending pdqsort_id "1,x2,3").
  - discriminate.
  - cbn. right. left. cbn. discriminate.
Defined.

(** C6 as stated fails: with the keys of "-1,5" handed out as -1, 5 and a
    roster of three devices, index 5 exceeds the roster, yet startup ends in
    the index operation on -1, not in the logged fatal error. *)
Lemma main_exceeding_index_after_negative :
  getBots range_ascending pdqsort_id "-1,5" = (Some [-1; 5], None)
  ∧ 5 ∈ [-1; 5] ∧ Z.of_nat (length fleet) < 5
  ∧ main quote_bare range_ascending pdqsort_id "token" "-1,5" (inl fleet) Register_ok None
    = mkProc [] None (PanicIndex (-2) 3)
  ∧ ∀ msg, exit (main quote_bare range_ascending pdqsort_id "token" "-1,5" (inl fleet)
                   Register_ok None) ≠ Fatal msg.
Proof.
  split_and!; [vm_compute; reflexivity|right; left|vm_compute; reflexivity
              |vm_compute; reflexivity|intros msg; vm_compute; discriminate].
Qed.

Lemma main_index_exceeds_roster_witness :
  (∃ msg, main quote_bare range_ascending pdqsort_id "token" "1,5" (inl fleet) Register_ok None
          = mkProc [] None (Fatal msg))
  ∧ ("token" ≠ "" → fleet ≠ [] →
     ∃ n, n ∈ [1; 5] ∧ Z.of_nat (length fleet) < n ∧
       main quote_bare range_ascending pdqsort_id "token" "1,5" (inl fleet) Register_ok None
       = mkProc [] None
           (Fatal ("Robot number " +:+ pretty n +:+ " out of bounds, there are "
                     +:+ pretty (Z.of_nat (length fleet)) +:+ " robots in total"))).
Proof.
  apply (main_index_exceeds_roster quote_bare range_ascending pdqsort_id
           range_ascending_perm pdqsort_id_perm "token" "1,5" fleet Register_ok None [1; 5]).
  - vm_compute. reflexivity.
  - intros n [->|[->|[]%elem_of_nil]%elem_of_cons]%elem_of_cons; lia.
  - exists 5. split; [right; left|vm_compute; reflexivity].
Defined.

(** C4 as stated fails: with the keys of "-1,5" handed out as 5, -1 and a
    roster of three devices, the list holds -1, yet startup ends in the
    logged fatal error for 5 and never indexes the roster with -1. *)
Lemma main_negative_index_after_exceeding :
  getBots range_descending pdqsort_id "-1,5" = (Some [5; -1], None)
  ∧ -1 ∈ [5; -1] ∧ -1 ≤ 0
  ∧ main quote_bare range_descending pdqsort_id "token" "-1,5" (inl fleet) Register_ok None
    = mkProc [] None (Fatal "Robot number 5 out of bounds, there are 3 robots in total")
  ∧ ∀ i len, exit (main quote_bare range_descending pdqsort_id "token" "-1,5" (inl fleet)
                     Register_ok None) ≠ PanicIndex i len.
Proof.
  split_and!; [vm_compute; reflexivity|right; left|lia
              |vm_compute; reflexivity|intros i len; vm_compute; discriminate].
Qed.

(** The selection "0" against a roster of three devices. *)
Lemma main_index_below_one_witness :
  ¬ (Z.of_nat (length fleet) < 0) ∧
  slice_index fleet (Int64.wrap (0 - 1)) = None ∧
  main quote_bare range_ascending pdqsort_id "token" "0" (inl fleet) Register_ok None
  = mkProc [] None (PanicIndex (Int64.wrap (0 - 1)) (length fleet)).
Proof.
  apply (main_index_below_one quote_bare range_ascending pdqsort_id
           range_ascending_perm pdqsort_id_perm "token" "0" fleet Register_ok None [] 0 []).
  - discriminate.
  - vm_compute. reflexivity.
  - discriminate.
  - vm_compute. discriminate.
  - constructor.
  - lia.
Defined.


(** C1 as stated fails: in a pass over the devices "a" and "b" where the
    state request for "a", at position 0, fails, device "b", at position 1,
    is polled in that same pass, after one sleep. *)
Lemma state_failure_next_device_polled :
  [robot_a; robot_b] !! 0%nat = Some robot_a
  ∧ api_State_a_down
      (calls (run (forRange quote_bare 60 api_State_a_down api_Maps_none
                     (take 0 [robot_a; robot_b])) world0)) robot_a
    = inr (errorString "timeout")
  ∧ events (run (forRange quote_bare 60 api_State_a_down api_Maps_none
                   [robot_a; robot_b]) world0)
    = [EvState robot_a; EvLog "Failed to get state for robot 'a': timeout"; EvSleep 60;
       EvState robot_b; EvMaps robot_b;
       EvLog "No maps found for robot 'b': (serial: 'sn-b')"]
  ∧ ¬ (∀ j r', (0 < j)%nat → [robot_a; robot_b] !! j = Some r' →
         r' ∉ polled (events (run (forRange quote_bare 60 api_State_a_down api_Maps_none
                                     [robot_a; robot_b]) world0))).
Proof.
  split_and!; [reflexivity|reflexivity|vm_compute; reflexivity|].
  intros Hno. apply (Hno 1%nat robot_b); [lia|reflexivity|].
  vm_compute. right. left.
Qed.

Lemma state_failure_skips_one_device_witness :
  polled (events (run (cycle quote_bare 60 api_State_a_down api_Maps_none
                         [robot_a; robot_b]) world0))
  = polled (events world0) ++ [robot_a; robot_b].
Proof.
  apply (state_failure_skips_one_device quote_bare 60 api_State_a_down api_Maps_none
           [robot_a; robot_b] 0 robot_a (errorString "timeout") world0).
  - reflexivity.
  - reflexivity.
Defined.

Lemma state_success_sets_gauges_witness :
  batteryGauge (run (loopBody quote_bare 60 api_State_a_down api_Maps_none robot_b) world0)
    !! [Name robot_b; Serial robot_b; default "unknown" (Model robot_b);
        default "unknown" (Firmware robot_b); default "unknown" (MACAddress robot_b)]
  = Some (float64_of_int (Charge (Neato.Details_ state_docked))).
Proof.
  apply (state_success_sets_gauges quote_bare 60 api_State_a_down api_Maps_none
           robot_b state_docked world0).
  reflexivity.
Defined.

Lemma absent_attributes_rendered_witness :
  batteryGauge (run (loopBody quote_bare 60 api_State_a_down api_Maps_none robot_b) world0)
  = <[ [Name robot_b; Serial robot_b; default "unknown" (Model robot_b);
        default "unknown" (Firmware robot_b); default "unknown" (MACAddress robot_b)]
       := float64_of_int (Charge (Neato.Details_ state_docked)) ]> (batteryGauge world0).
Proof.
  apply (absent_attributes_rendered quote_bare 60 api_State_a_down api_Maps_none
           robot_b state_docked world0).
  reflexivity.
Defined.

Lemma maps_absent_keeps_area_witness :
  areaGauge (run (loopBody quote_bare 60 api_State_a_down api_Maps_none robot_b)
               (run (forRange quote_bare 60 api_State_a_down api_Maps_none [robot_a]) world0))
  = areaGauge (run (forRange quote_bare 60 api_State_a_down api_Maps_none [robot_a]) world0).
Proof.
  apply (maps_absent_keeps_area quote_bare 60 api_State_a_down api_Maps_none
           [robot_a] robot_b [robot_c] state_docked world0).
  - reflexivity.
  - right. left. reflexivity.
Defined.

(** The labels and values of the example, computed. *)
Example loopBody_robot_b :
  map_to_list (batteryGauge
                 (run (loopBody quote_bare 60 api_State_a_down api_Maps_none robot_b) world0))
  = [(["b"; "sn-b"; "BotVacD7"; "unknown"; "unknown"], 87%float)]
  ∧ map_to_list (stateGauge
                   (run (loopBody quote_bare 60 api_State_a_down api_Maps_none robot_b) world0))
    = [(["b"; "sn-b"; "BotVacD7"; "unknown"; "unknown"; "unset"; "dustbin_full";
         "1"; "0"; "2"; "1"; "true"; "true"; "false"; "true"; "87"], 1%float)].
Proof. split; vm_compute; reflexivity. Qed.

(** * Further properties *)

(** ** The bot selector *)

Lemma list_to_set_size_pos (ns : list Z) : ns ≠ [] → size (list_to_set ns : gset Z) ≠ 0%nat.
Proof.
  destruct ns as [|n ns]; [done|]. intros _ Hsz.
  apply size_empty_inv in Hsz. apply (not_elem_of_empty (C:=gset Z) n).
  rewrite <-Hsz, elem_of_list_to_set. left.
Qed.

Lemma size_all_zero (ns : list Z) :
  (∀ n, n ∈ ns → n = 0) → (size (list_to_set ns : gset Z) ≤ 1)%nat.
Proof.
  intros Hz. rewrite <-(size_singleton (C:=gset Z) 0). apply subseteq_size.
  intros n Hn%elem_of_list_to_set. apply elem_of_singleton. auto.
Qed.

Section SelectorMore.
Variable map_range : gset Z → list Z.
Variable pdqsort_long : (list Z → nat → nat → bool) → list Z → list Z.
Hypothesis map_range_perm : ∀ m, map_range m ≡ₚ elements m.
Hypothesis pdqsort_long_perm : ∀ less l, pdqsort_long less l ≡ₚ l.

Local Abbreviation getBots := (getBots map_range pdqsort_long).
Local Abbreviation parses p n := (Strconv.ParseInt p 10 = (n, None)).

(** X1: [getBots] answers in one of three ways.  The pair of two [nil]s that
    stands for all devices is returned for the empty string and for no other
    input; a list is never returned together with an error, and a returned
    list is never empty. *)
Theorem getBots_outcomes s :
  (getBots s = (None, None) ↔ s = "")
  ∧ (∀ bots err, getBots s = (Some bots, err) → err = None ∧ bots ≠ [] ∧ s ≠ "").
Proof.
  split.
  - split; [|intros ->; reflexivity].
    unfold_getBots. destruct (decide (s = "")); [done|].
    destruct (parseParts _ _ _) as [[m hz]|e] eqn:Hpp; [|done].
    apply parseParts_inl in Hpp as (ns & Hns & -> & ->).
    rewrite (right_id_L ∅ (∪)).
    assert (Hne : ns ≠ []).
    { intros ->. apply Forall2_nil_inv_r in Hns. by apply Split_not_nil in Hns. }
    apply list_to_set_size_pos in Hne.
    destruct (size (list_to_set ns : gset Z)) as [|k] eqn:Hsz; [done|].
    rewrite andb_false_r. by case_match.
  - intros bots err Hg.
    destruct (getBots_Some _ _ map_range_perm pdqsort_long_perm _ _ _ Hg)
      as (-> & Hs & ns & Hns & Hperm).
    split_and!; [done| |done].
    intros ->. apply Permutation_nil_l in Hperm.
    assert (Hne : ns ≠ []).
    { intros ->. apply Forall2_nil_inv_r in Hns. by apply Split_not_nil in Hns. }
    apply list_to_set_size_pos in Hne. apply Hne.
    unfold size, set_size. simpl. by rewrite <-Hperm.
Qed.

(** A non-empty selection whose tokens all parse and in which zero is not
    mixed with another value is accepted. *)
Lemma getBots_accepts s ns :
  s ≠ "" →
  Forall2 (λ p n, parses p n) (Strings.Split s ",") ns →
  (0 ∈ ns → ∀ n, n ∈ ns → n = 0) →
  ∃ bots, getBots s = (Some bots, None) ∧ NoDup bots ∧ ∀ n, n ∈ bots ↔ n ∈ ns.
Proof.
  intros Hs Hns Hzero.
  assert (Hg : ∃ bots, getBots s = (Some bots, None)).
  { unfold_getBots. destruct (decide (s = "")); [done|].
    rewrite (parseParts_all_parse _ _ _ _ Hns), (right_id_L ∅ (∪)). cbn [orb].
    assert (Hne : ns ≠ []).
    { intros ->. apply Forall2_nil_inv_r in Hns. by apply Split_not_nil in Hns. }
    apply list_to_set_size_pos in Hne.
    destruct (decide (0 ∈ ns)) as [H0|H0].
    - pose proof (size_all_zero ns (Hzero H0)) as Hle.
      rewrite (bool_decide_eq_true_2 _ H0). cbn [andb].
      destruct (Nat.ltb_spec 1 (size (list_to_set ns : gset Z))); [lia|].
      destruct (Nat.eqb_spec (size (list_to_set ns : gset Z)) 0); [done|]. eauto.
    - rewrite (bool_decide_eq_false_2 _ H0). cbn [andb]. eauto. }
  destruct Hg as [bots Hg]. exists bots. split; [done|].
  destruct (getBots_Some _ _ map_range_perm pdqsort_long_perm _ _ _ Hg)
    as (_ & _ & ns' & Hns' & Hperm).
  assert (ns' = ns) as ->.
  { clear -Hns Hns'. revert ns' Hns'.
    induction Hns as [|p n ps ns Hp _ IH]; intros ns' Hns'.
    - by apply Forall2_nil_inv_l in Hns'.
    - apply Forall2_cons_inv_l in Hns' as (n' & ns'' & Hp' & Hns'' & ->).
      rewrite Hp in Hp'. simplify_eq. f_equal. by apply IH. }
  split.
  - rewrite Hperm. apply NoDup_elements.
  - intros n. by rewrite Hperm, elem_of_elements, elem_of_list_to_set.
Qed.

(** X2: a non-empty selection whose tokens all parse, and in which zero is
    not mixed with another value, is answered with a list and no error; the
    list holds every parsed value, each once. *)
Theorem getBots_distinct_values s ns :
  s ≠ "" →
  Forall2 (λ p n, parses p n) (Strings.Split s ",") ns →
  (0 ∈ ns → ∀ n, n ∈ ns → n = 0) →
  ∃ bots, getBots s = (Some bots, None) ∧ NoDup bots ∧ ∀ n, n ∈ bots ↔ n ∈ ns.
Proof. apply getBots_accepts. Qed.

(** X3: the call to [sort.Slice] changes nothing: with at most twelve
    distinct values, the returned list is the keys of the map in the order
    the iteration over the map produced them. *)
Theorem getBots_keeps_map_order s ns bots :
  Forall2 (λ p n, parses p n) (Strings.Split s ",") ns →
  getBots s = (Some bots, None) →
  (size (list_to_set ns : gset Z) ≤ 12)%nat →
  bots = map_range (list_to_set ns).
Proof.
  intros Hns Hg Hsz. revert Hg. unfold_getBots.
  destruct (decide (s = "")); [done|].
  rewrite (parseParts_all_parse _ _ _ _ Hns), (right_id_L ∅ (∪)).
  repeat case_match; try done. intros [= <-].
  apply Slice_index_less. unfold Sort.maxInsertion.
  rewrite map_range_perm. by fold (size (list_to_set ns : gset Z)).
Qed.

(** X4: when every token of a non-empty selection parses, [getBots] fails
    exactly when zero occurs together with a nonzero value, and the error is
    then the one of line 133. *)
Theorem getBots_error_iff_zero_mixed s ns :
  s ≠ "" →
  Forall2 (λ p n, parses p n) (Strings.Split s ",") ns →
  ((∃ err, getBots s = (None, Some err)) ↔ (0 ∈ ns ∧ ∃ n, n ∈ ns ∧ n ≠ 0))
  ∧ (∀ bots err, getBots s = (bots, Some err) →
       bots = None ∧ err = errorString "cannot have a list of indexes containing zero").
Proof.
  intros Hs Hns.
  assert (Hcases : (0 ∈ ns ∧ ∃ n, n ∈ ns ∧ n ≠ 0) ∨ (0 ∈ ns → ∀ n, n ∈ ns → n = 0)).
  { destruct (decide (0 ∈ ns)) as [H0|H0]; [|right; done].
    destruct (decide (Forall (λ n, n = 0) ns)) as [Hall|Hex].
    - right. intros _ n Hn. by eapply Forall_forall in Hall.
    - left. split; [done|]. apply not_Forall_Exists in Hex; [|apply _].
      apply Exists_exists in Hex as (n & ? & ?). eauto. }
  assert (Herr : ∀ bots err, getBots s = (bots, Some err) →
            bots = None ∧ err = errorString "cannot have a list of indexes containing zero").
  { intros bots err. unfold_getBots. destruct (decide (s = "")); [done|].
    rewrite (parseParts_all_parse _ _ _ _ Hns). repeat case_match; try done.
    by intros [= <- <-]. }
  split; [|done]. split.
  - intros [err Hg]. destruct Hcases as [?|Hz]; [done|].
    destruct (getBots_accepts s ns Hs Hns Hz) as (bots & Hg' & _).
    rewrite Hg in Hg'. done.
  - intros (H0 & n & Hn & Hn0). unfold_getBots.
    destruct (decide (s = "")); [done|].
    rewrite (parseParts_all_parse _ _ _ _ Hns), (bool_decide_eq_true_2 _ H0).
    cbn [orb andb].
    assert (Hsz : (1 < size (list_to_set ns ∪ (∅ : gset Z)))%nat).
    { apply (size_two 0 n); [done|..]; rewrite elem_of_union, elem_of_list_to_set; by left. }
    apply Nat.ltb_lt in Hsz. rewrite Hsz. eauto.
Qed.
End SelectorMore.

(** ** Startup *)

(** The loop of lines 181-186 ends normally only on positions of the roster,
    and then appends the devices at those positions, in order. *)
Lemma resolve_inr allRobots bots : ∀ robots robots',
  Z.of_nat (length allRobots) ≤ Int64.max_int →
  Forall Int64.in_range bots →
  resolve allRobots bots robots = inr robots' →
  ∃ rs, robots' = robots ++ rs
        ∧ Forall2 (λ n r, 1 ≤ n ≤ Z.of_nat (length allRobots)
                          ∧ allRobots !! Z.to_nat (n - 1) = Some r) bots rs.
Proof.
  induction bots as [|n bots IH]; intros robots robots' Hlen Hrange Hres; simpl in Hres.
  - simplify_eq. exists []. by rewrite app_nil_r.
  - apply Forall_cons in Hrange as [Hn Hrange].
    destruct (Z.ltb_spec (Z.of_nat (length allRobots)) n); [done|].
    destruct (slice_index allRobots (Int64.wrap (n - 1))) as [r|] eqn:Hidx; [|done].
    destruct (decide (n ≤ 0)) as [Hle|Hpos].
    { by rewrite index_non_positive in Hidx. }
    apply IH in Hres as (rs & -> & Hrs); [|done..].
    exists (r :: rs). rewrite <-app_assoc. split; [done|]. constructor; [|done].
    split; [lia|]. revert Hidx.
    rewrite wrap_id by (unfold Int64.in_range, Int64.min_int, Int64.max_int in *; lia).
    unfold slice_index. by case_match.
Qed.


(** A way out of the loop through the index operation is taken at an index
    below one. *)
Lemma resolve_panic_inv allRobots bots : ∀ robots i len,
  Forall Int64.in_range bots →
  resolve allRobots bots robots = inl (PanicIndex i len) →
  ∃ n, n ∈ bots ∧ n ≤ 0 ∧ i = Int64.wrap (n - 1) ∧ len = length allRobots.
Proof.
  induction bots as [|n bots IH]; intros robots i len Hrange Hres; simpl in Hres; [done|].
  apply Forall_cons in Hrange as [Hn Hrange].
  destruct (Z.ltb_spec (Z.of_nat (length allRobots)) n); [done|].
  destruct (slice_index allRobots (Int64.wrap (n - 1))) as [r|] eqn:Hidx.
  - destruct (IH _ _ _ Hrange Hres) as (m & ? & ?). exists m. split; [by right|done].
  - simplify_eq. exists n. split_and!; [left| |done..].
    destruct (decide (n ≤ 0)); [done|].
    destruct (index_in_bounds allRobots n Hn) as [r Hr]; [lia|]. by rewrite Hidx in Hr.
Qed.

Lemma resolve_inl_not_Serving allRobots bots : ∀ robots e,
  resolve allRobots bots robots = inl e → e ≠ Serving.
Proof.
  induction bots as [|n bots IH]; intros robots e Hres; simpl in Hres; [done|].
  repeat case_match; simplify_eq; eauto.
Qed.


Lemma registerAll_inv Quote Register gauges : ∀ regd regd',
  registerAll Quote Register gauges regd = (regd', None) →
  Forall (λ g, Register g.1 = None) gauges ∧ regd' = regd ++ gauges.*1.
Proof.
  induction gauges as [|[name what] gauges IH]; intros regd regd' Hreg; simpl in Hreg.
  - simplify_eq. by rewrite app_nil_r.
  - destruct (Register name) eqn:Hname; [done|].
    apply IH in Hreg as [Hok ->]. rewrite <-app_assoc. split; [|done]. by constructor.
Qed.

Section StartupMore.
Variable Quote : string → string.
Variable map_range : gset Z → list Z.
Variable pdqsort_long : (list Z → nat → nat → bool) → list Z → list Z.
Hypothesis map_range_perm : ∀ m, map_range m ≡ₚ elements m.
Hypothesis pdqsort_long_perm : ∀ less l, pdqsort_long less l ≡ₚ l.

Local Abbreviation getBots := (getBots map_range pdqsort_long).
Local Abbreviation main := (main Quote map_range pdqsort_long).

(** X5: when startup starts the collector, the token was given, the three
    gauge vectors were registered in the order battery, area, state, each
    under the name [makeGauge] gave it, the roster was fetched and is not
    empty, and the collector was given the whole roster (empty selection) or
    the devices at the selected one-based positions, in the order of the
    selection list. *)
Theorem main_collector_started flagToken flagBots acc_Robots Register ListenAndServe robots :
  (∀ allRobots, acc_Robots = inl allRobots →
     Z.of_nat (length allRobots) ≤ Int64.max_int) →
  collector_started (main flagToken flagBots acc_Robots Register ListenAndServe)
  = Some robots →
  flagToken ≠ ""
  ∧ registered (main flagToken flagBots acc_Robots Register ListenAndServe)
    = gv_Name ∘ gaugeVec <$> [BatteryGauge; AreaGauge; StateGauge]
  ∧ Forall (λ g, Register (gv_Name (gaugeVec g)) = None)
      [BatteryGauge; AreaGauge; StateGauge]
  ∧ ∃ allRobots, acc_Robots = inl allRobots ∧ allRobots ≠ [] ∧
      match getBots flagBots with
      | (None, None) => robots = allRobots
      | (Some bots, None) =>
          Forall2 (λ n r, 1 ≤ n ≤ Z.of_nat (length allRobots)
                          ∧ allRobots !! Z.to_nat (n - 1) = Some r) bots robots
      | (_, Some _) => False
      end.
Proof.
  intros Hlen. unfold_main.
  destruct (decide (flagToken = "")); [done|].
  destruct (getBots flagBots) as [bots [err|]] eqn:Hbots; [done|].
  destruct acc_Robots as [allRobots|err]; [|done].
  destruct allRobots as [|r0 allRobots]; [done|].
  set (roster := r0 :: allRobots) in *.
  change (length roster =? 0)%nat with false. cbv iota.
  destruct (match bots with Some bots0 => resolve roster bots0 [] | None => inr roster end)
    as [e|robots'] eqn:Hres; [done|].
  destruct (registerAll _ _ _ _) as [regd [msg|]] eqn:Hreg; [done|].
  apply registerAll_inv in Hreg as [Hok ->].
  intros Hstarted.
  assert (robots' = robots) as -> by (destruct ListenAndServe; simpl in Hstarted; congruence).
  split_and!; [done|by destruct ListenAndServe| |].
  { repeat (apply Forall_cons in Hok as [? Hok]). by repeat constructor. }
  exists roster. split_and!; [done..|].
  destruct bots as [bots|]; [|by simplify_eq].
  apply resolve_inr in Hres as (rs & -> & Hrs); [done|by apply Hlen|].
  exact (getBots_in_range _ _ map_range_perm pdqsort_long_perm _ _ _ Hbots).
Qed.


(** X7: when the registration of one of the three gauge vectors fails, the
    collector is not started and the server does not serve. *)
Theorem main_register_failure flagToken flagBots acc_Robots Register ListenAndServe g :
  Register (gv_Name (gaugeVec g)) ≠ None →
  collector_started (main flagToken flagBots acc_Robots Register ListenAndServe) = None
  ∧ exit (main flagToken flagBots acc_Robots Register ListenAndServe) ≠ Serving.
Proof.
  intros Hfail. unfold_main.
  destruct (decide (flagToken = "")); [done|].
  destruct (getBots flagBots) as [bots [err|]]; [done|].
  destruct acc_Robots as [allRobots|err]; [|done].
  destruct (length allRobots =? 0)%nat; [done|].
  destruct (match bots with Some bots0 => resolve allRobots bots0 [] | None => inr allRobots end)
    as [e|robots] eqn:Hres.
  { destruct bots as [bots|]; [|done]. apply resolve_inl_not_Serving in Hres. done. }
  destruct (registerAll _ _ _ _) as [regd [msg|]] eqn:Hreg; [done|].
  apply registerAll_inv in Hreg as [Hok _].
  repeat (apply Forall_cons in Hok as [? Hok]). by destruct g.
Qed.

(** X8: startup ends in the index operation out of range only for a
    selected index below one. *)
Theorem main_panic_only_below_one flagToken flagBots acc_Robots Register ListenAndServe i len :
  exit (main flagToken flagBots acc_Robots Register ListenAndServe) = PanicIndex i len →
  ∃ bots n, getBots flagBots = (Some bots, None) ∧ n ∈ bots ∧ n ≤ 0
            ∧ i = Int64.wrap (n - 1).
Proof.
  unfold_main.
  destruct (decide (flagToken = "")); [done|].
  destruct (getBots flagBots) as [bots [err|]] eqn:Hbots; [done|].
  destruct acc_Robots as [allRobots|err]; [|done].
  destruct (length allRobots =? 0)%nat; [done|].
  destruct bots as [bots|]; cycle 1.
  { destruct (registerAll _ _ _ _) as [regd [msg|]]; [done|]. by destruct ListenAndServe. }
  destruct (resolve allRobots bots []) as [e|robots] eqn:Hres; cycle 1.
  { destruct (registerAll _ _ _ _) as [regd [msg|]]; [done|]. by destruct ListenAndServe. }
  cbn. intros ->.
  apply resolve_panic_inv in Hres as (k & ? & ? & ? & _).
  - exists bots, k. done.
  - exact (getBots_in_range _ _ map_range_perm pdqsort_long_perm _ _ _ Hbots).
Qed.
End StartupMore.

(** ** The collector loop *)

Lemma maps_requested_app evs1 evs2 :
  maps_requested (evs1 ++ evs2) = maps_requested evs1 ++ maps_requested evs2.
Proof. apply omap_app. Qed.

Lemma sleeps_app evs1 evs2 : sleeps (evs1 ++ evs2) = sleeps evs1 ++ sleeps evs2.
Proof. apply omap_app. Qed.

Lemma sleeps_time_Sleep d w :
  sleeps (events (run (time_Sleep d) w)) = sleeps (events w) ++ [d].
Proof. unfold run, time_Sleep, emit. cbn. by rewrite sleeps_app. Qed.

Lemma maps_requested_time_Sleep d w :
  maps_requested (events (run (time_Sleep d) w)) = maps_requested (events w).
Proof. unfold run, time_Sleep, emit. cbn. by rewrite maps_requested_app, app_nil_r. Qed.

Section CollectorMore.
Context `{NeatoEnums}.
Variable Quote : string → string.
Variable flagInterval : Z.
Variable api_State : nat → Robot → Neato.RobotState + error.
Variable api_Maps : nat → Robot → list Neato.Map + error.

Local Abbreviation loopBody := (loopBody Quote flagInterval api_State api_Maps).
Local Abbreviation forRange := (forRange Quote flagInterval api_State api_Maps).
Local Abbreviation cycle := (cycle Quote flagInterval api_State api_Maps).
Local Abbreviation collector := (collector Quote flagInterval api_State api_Maps).

(** What one run of the body can do to a gauge vector: nothing, or one
    upsert under a key that starts with the identity labels of the device and
    has one value per label name; an upsert of the state gauge writes 1. *)
Lemma loopBody_entries r w g :
  entries g (run (loopBody r) w) = entries g w
  ∨ ∃ lvs v,
      entries g (run (loopBody r) w) = <[lvs := v]> (entries g w)
      ∧ take 5 lvs = identity_labels r
      ∧ length lvs = length (gv_labelNames (gaugeVec g))
      ∧ (g = StateGauge → v = 1%float).
Proof.
  unfold_body. destruct (api_State (calls w) r) as [s|err]; cbn; [|by left].
  destruct (api_Maps (S (calls w)) r) as [[|m0 ms]|err]; cbn;
    [| destruct (Neato.CleanedArea m0) as [a|]; cbn |];
    destruct g; cbn; first [by left | right; eexists _, _; by split_and!].
Qed.

Lemma cycle_run robots w :
  run (cycle robots) w = run (time_Sleep flagInterval) (run (forRange robots) w).
Proof. unfold_cycle. apply run_bind. Qed.

Lemma collector_S n robots w :
  run (collector (S n) robots) w = run (collector n robots) (run (cycle robots) w).
Proof. unfold_collector. apply run_bind. Qed.

Lemma entries_sleep g d w : entries g (run (time_Sleep d) w) = entries g w.
Proof. by destruct g. Qed.

(** A property of the gauge vectors that one run of the body keeps is kept
    by any number of iterations of the collector. *)
Lemma collector_keeps (P : (Gauge → gmap (list string) float) → Prop) robots :
  (∀ r w, r ∈ robots → P (λ g, entries g w) → P (λ g, entries g (run (loopBody r) w))) →
  ∀ n w, P (λ g, entries g w) → P (λ g, entries g (run (collector n robots) w)).
Proof.
  intros Hbody.
  assert (Hpass : ∀ rs w, rs ⊆ robots → P (λ g, entries g w) →
            P (λ g, entries g (run (forRange rs) w))).
  { induction rs as [|r rs IH]; intros w Hsub Hw; [done|].
    rewrite forRange_cons. apply IH; [set_solver|]. apply Hbody; [set_solver|done]. }
  induction n as [|n IH]; intros w Hw; [done|].
  rewrite collector_S. apply IH. rewrite cycle_run.
  assert (Heq : (λ g, entries g (run (time_Sleep flagInterval) (run (forRange robots) w)))
                = (λ g, entries g (run (forRange robots) w))); [|rewrite Heq; by apply Hpass].
  reflexivity.
Qed.

(** X9: when the state request succeeds and the first map returned has a
    cleaned area, the body sets the area entry of the device's identity labels
    to that area; the maps after the first are not looked at, and nothing is
    logged and no sleep is taken. *)
Theorem area_set_from_first_map r s m0 ms a w :
  api_State (calls w) r = inl s →
  api_Maps (S (calls w)) r = inl (m0 :: ms) →
  Neato.CleanedArea m0 = Some a →
  areaGauge (run (loopBody r) w) = <[identity_labels r := a]> (areaGauge w)
  ∧ events (run (loopBody r) w) = events w ++ [EvState r; EvMaps r]
  ∧ calls (run (loopBody r) w) = S (S (calls w)).
Proof.
  intros Hs Hm Ha. unfold_body. rewrite Hs. cbn. rewrite Hm. cbn. rewrite Ha. cbn.
  by rewrite <-app_assoc.
Qed.

(** X10: the collector never removes an entry of a gauge vector: an entry
    present before any number of cycles is present after them. *)
Theorem gauges_never_shrink n robots w g lvs :
  is_Some (entries g w !! lvs) →
  is_Some (entries g (run (collector n robots) w) !! lvs).
Proof.
  revert w. apply (collector_keeps (λ G, is_Some (G g !! lvs))).
  intros r w _ Hw. destruct (loopBody_entries r w g) as [->|(k & v & -> & _)]; [done|].
  rewrite lookup_insert. case_decide; [done|]. done.
Qed.

(** X11: the state gauge only ever holds the value 1: if every entry of it
    is 1 before the collector runs, every entry is 1 after any number of
    cycles. *)
Theorem state_gauge_always_one n robots w :
  (∀ lvs v, stateGauge w !! lvs = Some v → v = 1%float) →
  ∀ lvs v, stateGauge (run (collector n robots) w) !! lvs = Some v → v = 1%float.
Proof.
  revert w.
  apply (collector_keeps (λ G, ∀ lvs v, G StateGauge !! lvs = Some v → v = 1%float)).
  intros r w _ Hw lvs v.
  destruct (loopBody_entries r w StateGauge) as [->|(k & v' & -> & _ & _ & Hv)]; [apply Hw|].
  rewrite lookup_insert. case_decide; [|apply Hw]. intros [= <-]. by apply Hv.
Qed.

(** What a successful state request makes the body write. *)
Lemma loopBody_success r s w :
  api_State (calls w) r = inl s →
  batteryGauge (run (loopBody r) w)
  = <[identity_labels r := float64_of_int (Charge (Neato.Details_ s))]> (batteryGauge w)
  ∧ stateGauge (run (loopBody r) w) = <[state_labels r s := 1%float]> (stateGauge w)
  ∧ areaGauge (run (loopBody r) w)
    = match api_Maps (S (calls w)) r with
      | inl (m0 :: _) =>
          match Neato.CleanedArea m0 with
          | Some a => <[identity_labels r := a]> (areaGauge w)
          | None => areaGauge w
          end
      | _ => areaGauge w
      end.
Proof.
  intros Hs. unfold_body. rewrite Hs. cbn.
  destruct (api_Maps (S (calls w)) r) as [[|m0 ms]|err]; cbn;
    [| destruct (Neato.CleanedArea m0) as [a|]; cbn |]; done.
Qed.

(** X12: polling a device a second time with the same answers from the
    service leaves the three gauge vectors as the first poll left them. *)
Theorem loopBody_idempotent r w g :
  api_State (calls (run (loopBody r) w)) r = api_State (calls w) r →
  api_Maps (S (calls (run (loopBody r) w))) r = api_Maps (S (calls w)) r →
  entries g (run (loopBody r) (run (loopBody r) w)) = entries g (run (loopBody r) w).
Proof.
  intros Hs Hm. destruct (api_State (calls w) r) as [s|err] eqn:Hs1.
  - destruct (loopBody_success r s _ Hs) as (Hb2 & Hs2 & Ha2).
    destruct (loopBody_success r s _ Hs1) as (Hb1 & Hs1' & Ha1).
    destruct g; cbn [entries].
    + by rewrite Hb2, Hb1, insert_insert_eq.
    + rewrite Ha2, Hm, Ha1.
      destruct (api_Maps (S (calls w)) r) as [[|m0 ms]|e]; [done| |done].
      destruct (Neato.CleanedArea m0); [|done]. by rewrite insert_insert_eq.
    + by rewrite Hs2, Hs1', insert_insert_eq.
  - rewrite (loopBody_failure _ _ _ _ _ _ _ Hs). by destruct g.
Qed.

(** X13: [n] iterations of the endless loop request the state of every
    device of the list [n] times, in the order of the list, whatever the
    service answers. *)
Theorem collector_polls_every_cycle n robots w :
  polled (events (run (collector n robots) w))
  = polled (events w) ++ concat (replicate n robots).
Proof. apply polled_collector. Qed.

(** The body takes one sleep or makes one map request, not both. *)
Lemma loopBody_sleep_or_maps r w :
  (length (sleeps (events (run (loopBody r) w)))
   + length (maps_requested (events (run (loopBody r) w))))%nat
  = S (length (sleeps (events w)) + length (maps_requested (events w)))
  ∧ (Forall (eq flagInterval) (sleeps (events w)) →
     Forall (eq flagInterval) (sleeps (events (run (loopBody r) w)))).
Proof.
  unfold_body. destruct (api_State (calls w) r) as [s|err]; cbn.
  - destruct (api_Maps (S (calls w)) r) as [[|m0 ms]|err]; cbn;
      [| destruct (Neato.CleanedArea m0) as [a|]; cbn |];
      rewrite ?sleeps_app, ?maps_requested_app, ?length_app; cbn;
      rewrite ?app_nil_r; (split; [lia|done]).
  - rewrite !sleeps_app, !maps_requested_app, !length_app. cbn.
    rewrite !app_nil_r. split; [lia|]. intros Hall. apply Forall_app. by split; [|constructor].
Qed.

(** X14: in [n] cycles over [k] devices the collector takes [n] sleeps at
    the end of the passes and one more sleep for every state request that is
    not followed by a map request, that is, for every failed state request;
    every sleep lasts the configured interval. *)
Theorem collector_sleeps n robots : ∀ w,
  (length (sleeps (events (run (collector n robots) w)))
   + length (maps_requested (events (run (collector n robots) w))))%nat
  = (length (sleeps (events w)) + length (maps_requested (events w))
     + n * (length robots + 1))%nat
  ∧ (Forall (eq flagInterval) (sleeps (events w)) →
     Forall (eq flagInterval) (sleeps (events (run (collector n robots) w)))).
Proof.
  assert (Hpass : ∀ rs w,
    (length (sleeps (events (run (forRange rs) w)))
     + length (maps_requested (events (run (forRange rs) w))))%nat
    = (length (sleeps (events w)) + length (maps_requested (events w)) + length rs)%nat
    ∧ (Forall (eq flagInterval) (sleeps (events w)) →
       Forall (eq flagInterval) (sleeps (events (run (forRange rs) w))))).
  { induction rs as [|r rs IH]; intros w; [split; [cbn; lia|done]|].
    rewrite forRange_cons. destruct (IH (run (loopBody r) w)) as [-> Hall].
    destruct (loopBody_sleep_or_maps r w) as [-> Hall']. split; [cbn; lia|auto]. }
  induction n as [|n IH]; intros w; [split; [cbn; lia|done]|].
  rewrite collector_S, cycle_run.
  destruct (IH (run (time_Sleep flagInterval) (run (forRange robots) w))) as [-> Hall].
  rewrite sleeps_time_Sleep, maps_requested_time_Sleep, length_app.
  destruct (Hpass robots w) as [Hcount Hall']. cbn [length].
  split; [lia|]. intros Hw. apply Hall. rewrite sleeps_time_Sleep.
  apply Forall_app. split; [auto|by constructor].
Qed.

(** X15: the collector touches only entries of the devices it was given:
    an entry whose first five label values are not the identity labels of a
    device of the list is the same after any number of cycles, present or
    absent. *)
Theorem collector_frame n robots w g lvs :
  (∀ r, r ∈ robots → take 5 lvs ≠ identity_labels r) →
  entries g (run (collector n robots) w) !! lvs = entries g w !! lvs.
Proof.
  intros Hother.
  apply (collector_keeps (λ G, G g !! lvs = entries g w !! lvs)); [|done].
  intros r w' Hr Hw'. destruct (loopBody_entries r w' g) as [->|(k & v & -> & Hk & _)]; [done|].
  rewrite lookup_insert_ne; [done|]. intros ->. by apply (Hother r).
Qed.

(** X16: the collector always gives [WithLabelValues] one value per label
    name of the gauge vector: if every entry has as many label values as its
    vector has label names, this still holds after any number of cycles. *)
Theorem collector_well_labelled n robots w :
  well_labelled w → well_labelled (run (collector n robots) w).
Proof.
  unfold well_labelled. revert w.
  apply (collector_keeps
           (λ G, ∀ g lvs, is_Some (G g !! lvs) → length lvs = length (gv_labelNames (gaugeVec g)))).
  intros r w _ Hw g lvs.
  destruct (loopBody_entries r w g) as [->|(k & v & -> & _ & Hlen & _)]; [apply Hw|].
  rewrite lookup_insert. case_decide; [by subst|apply Hw].
Qed.

(** X17: the label values the body passes line up with the label names the
    gauge vectors were created with: the battery entry and the state entry it
    writes pair each name with the attribute of that name. *)
Theorem labels_aligned r s w :
  api_State (calls w) r = inl s →
  ∃ ids lvs,
    batteryGauge (run (loopBody r) w)
    = <[ids := float64_of_int (Charge (Neato.Details_ s))]> (batteryGauge w)
    ∧ stateGauge (run (loopBody r) w) = <[lvs := 1%float]> (stateGauge w)
    ∧ zip (gv_labelNames (gaugeVec BatteryGauge)) ids
      = [("name", Name r); ("serial", Serial r);
         ("model", default "unknown" (Model r));
         ("firmware", default "unknown" (Firmware r));
         ("mac", default "unknown" (MACAddress r))]
    ∧ zip (gv_labelNames (gaugeVec StateGauge)) lvs
      = [("name", Name r); ("serial", Serial r);
         ("model", default "unknown" (Model r));
         ("firmware", default "unknown" (Firmware r));
         ("mac", default "unknown" (MACAddress r));
         ("error", default "unset" (Neato.Error s));
         ("alert", default "unset" (Neato.Alert s));
         ("state", State_String (Neato.State s));
         ("action", Action_String (Neato.Action s));
         ("category", Category_String (Neato.Category (Neato.Cleaning_ s)));
         ("navigation_mode",
          NavigationMode_String (Neato.NavigationMode (Neato.Cleaning_ s)));
         ("is_charging", Strconv.FormatBool (IsCharging (Neato.Details_ s)));
         ("is_docked", Strconv.FormatBool (IsDocked (Neato.Details_ s)));
         ("is_schedule_enabled",
          Strconv.FormatBool (IsScheduleEnabled (Neato.Details_ s)));
         ("dock_has_been_seen", Strconv.FormatBool (DockHasBeenSeen (Neato.Details_ s)));
         ("charge", Strconv.FormatInt (Charge (Neato.Details_ s)))].
Proof.
  intros Hs. destruct (loopBody_success r s w Hs) as (Hb & Hst & _).
  exists (identity_labels r), (state_labels r s). split_and!; done.
Qed.
End CollectorMore.

(** ** Startup and collector together *)

(** X18: with the empty selection, the collector that startup starts polls
    the whole fetched roster, in roster order, in every cycle. *)
Theorem all_devices_polled_each_cycle `{NeatoEnums}
    Quote map_range pdqsort_long flagToken allRobots Register ListenAndServe
    flagInterval api_State api_Maps robots n w :
  collector_started
    (main Quote map_range pdqsort_long flagToken "" (inl allRobots) Register ListenAndServe)
  = Some robots →
  polled (events (run (collector Quote flagInterval api_State api_Maps n robots) w))
  = polled (events w) ++ concat (replicate n allRobots).
Proof.
  unfold_main. destruct (decide (flagToken = "")); [done|].
  change (getBots map_range pdqsort_long "") with (@None (list Z), @None error). cbv iota beta.
  destruct (length allRobots =? 0)%nat; [done|].
  destruct (registerAll _ _ _ _) as [regd [msg|]]; [done|].
  intros Hst. assert (robots = allRobots) as -> by (destruct ListenAndServe; cbn in Hst; congruence).
  apply polled_collector.
Qed.

(** ** Further runs on concrete inputs *)

Lemma getBots_outcomes_witness :
  (getBots range_ascending pdqsort_id "3,1,3" = (None, None) ↔ "3,1,3" = "")
  ∧ (∀ bots err, getBots range_ascending pdqsort_id "3,1,3" = (Some bots, err) →
       err = None ∧ bots ≠ [] ∧ "3,1,3" ≠ "").
Proof.
  apply (getBots_outcomes range_ascending pdqsort_id range_ascending_perm pdqsort_id_perm).
Defined.

Lemma getBots_distinct_values_witness :
  ∃ bots, getBots range_ascending pdqsort_id "3,1,3" = (Some bots, None)
          ∧ NoDup bots ∧ ∀ n, n ∈ bots ↔ n ∈ [3; 1; 3].
Proof.
  apply (getBots_distinct_values range_ascending pdqsort_id
           range_ascending_perm pdqsort_id_perm "3,1,3" [3; 1; 3]).
  - discriminate.
  - cbn. repeat constructor.
  - intros H0. exfalso. revert H0. rewrite !elem_of_cons, elem_of_nil. lia.
Defined.

Lemma getBots_keeps_map_order_witness :
  [3; 1] = range_descending (list_to_set [3; 1; 3]).
Proof.
  apply (getBots_keeps_map_order range_descending pdqsort_id
           range_descending_perm "3,1,3" [3; 1; 3] [3; 1]).
  - cbn. repeat constructor.
  - vm_compute. reflexivity.
  - vm_compute. lia.
Defined.

Lemma getBots_error_iff_zero_mixed_witness :
  ((∃ err, getBots range_ascending pdqsort_id "0,7" = (None, Some err))
   ↔ (0 ∈ [0; 7] ∧ ∃ n, n ∈ [0; 7] ∧ n ≠ 0))
  ∧ (∀ bots err, getBots range_ascending pdqsort_id "0,7" = (bots, Some err) →
       bots = None ∧ err = errorString "cannot have a list of indexes containing zero").
Proof.
  apply (getBots_error_iff_zero_mixed range_ascending pdqsort_id
           range_ascending_perm pdqsort_id_perm "0,7" [0; 7]).
  - discriminate.
  - cbn. repeat constructor.
Defined.

Lemma main_collector_started_witness :
  "token" ≠ ""
  ∧ registered (main quote_bare range_ascending pdqsort_id "token" "3,1" (inl fleet)
                  Register_ok None)
    = gv_Name ∘ gaugeVec <$> [BatteryGauge; AreaGauge; StateGauge]
  ∧ Forall (λ g, Register_ok (gv_Name (gaugeVec g)) = None)
      [BatteryGauge; AreaGauge; StateGauge]
  ∧ ∃ allRobots, inl (B:=error) fleet = inl allRobots ∧ allRobots ≠ [] ∧
      match getBots range_ascending pdqsort_id "3,1" with
      | (None, None) => [robot_a; robot_c] = allRobots
      | (Some bots, None) =>
          Forall2 (λ n r, 1 ≤ n ≤ Z.of_nat (length allRobots)
                          ∧ allRobots !! Z.to_nat (n - 1) = Some r) bots [robot_a; robot_c]
      | (_, Some _) => False
      end.
Proof.
  apply (main_collector_started quote_bare range_ascending pdqsort_id
           range_ascending_perm pdqsort_id_perm "token" "3,1" (inl fleet) Register_ok None
           [robot_a; robot_c]).
  - intros allRobots [= <-]. vm_compute. discriminate.
  - vm_compute. reflexivity.
Defined.


Lemma main_register_failure_witness :
  collector_started (main quote_bare range_ascending pdqsort_id "token" "" (inl fleet)
                       Register_area_taken None) = None
  ∧ exit (main quote_bare range_ascending pdqsort_id "token" "" (inl fleet)
            Register_area_taken None) ≠ Serving.
Proof.
  apply (main_register_failure quote_bare range_ascending pdqsort_id
           "token" "" (inl fleet) Register_area_taken None AreaGauge).
  cbn. discriminate.
Defined.

Lemma main_panic_only_below_one_witness :
  ∃ bots n, getBots range_ascending pdqsort_id "2,-4" = (Some bots, None) ∧ n ∈ bots ∧ n ≤ 0
            ∧ -5 = Int64.wrap (n - 1).
Proof.
  apply (main_panic_only_below_one quote_bare range_ascending pdqsort_id
           range_ascending_perm pdqsort_id_perm "token" "2,-4" (inl fleet) Register_ok None
           (-5) 3).
  vm_compute. reflexivity.
Defined.

Lemma area_set_from_first_map_witness :
  areaGauge (run (loopBody quote_bare 60 api_State_up api_Maps_cleaned robot_c) world0)
  = <[identity_labels robot_c := 42%float]> (areaGauge world0).
Proof.
  apply (area_set_from_first_map quote_bare 60 api_State_up api_Maps_cleaned
           robot_c state_docked (Neato.mkMap (Some 42%float)) [] 42%float world0);
    reflexivity.
Defined.

Lemma gauges_never_shrink_witness :
  is_Some (entries BatteryGauge
             (run (collector quote_bare 60 api_State_a_down api_Maps_none 2 [robot_a; robot_b])
                (run (loopBody quote_bare 60 api_State_up api_Maps_cleaned robot_c) world0))
           !! identity_labels robot_c).
Proof.
  apply (gauges_never_shrink quote_bare 60 api_State_a_down api_Maps_none 2
           [robot_a; robot_b]).
  eexists. apply lookup_insert_eq.
Defined.

Lemma state_gauge_always_one_witness :
  (∀ lvs v, stateGauge world0 !! lvs = Some v → v = 1%float)
  ∧ (∀ lvs v,
       stateGauge (run (collector quote_bare 60 api_State_a_down api_Maps_none 2 fleet) world0)
         !! lvs = Some v → v = 1%float).
Proof.
  assert (H0 : ∀ lvs v, stateGauge world0 !! lvs = Some v → v = 1%float).
  { intros lvs v Hl. cbn in Hl. by rewrite lookup_empty in Hl. }
  split; [exact H0|].
  exact (state_gauge_always_one quote_bare 60 api_State_a_down api_Maps_none 2 fleet world0 H0).
Defined.

Lemma loopBody_idempotent_witness :
  entries AreaGauge
    (run (loopBody quote_bare 60 api_State_up api_Maps_cleaned robot_c)
       (run (loopBody quote_bare 60 api_State_up api_Maps_cleaned robot_c) world0))
  = entries AreaGauge (run (loopBody quote_bare 60 api_State_up api_Maps_cleaned robot_c) world0).
Proof.
  apply (loopBody_idempotent quote_bare 60 api_State_up api_Maps_cleaned robot_c world0
           AreaGauge); reflexivity.
Defined.

Lemma collector_frame_witness :
  entries StateGauge
    (run (collector quote_bare 60 api_State_up api_Maps_cleaned 3 [robot_a; robot_b])
       (run (loopBody quote_bare 60 api_State_up api_Maps_cleaned robot_c) world0))
    !! state_labels robot_c state_docked
  = entries StateGauge (run (loopBody quote_bare 60 api_State_up api_Maps_cleaned robot_c) world0)
      !! state_labels robot_c state_docked.
Proof.
  apply (collector_frame quote_bare 60 api_State_up api_Maps_cleaned 3 [robot_a; robot_b]).
  intros r [->|[->|[]%elem_of_nil]%elem_of_cons]%elem_of_cons; discriminate.
Defined.

Lemma collector_well_labelled_witness :
  well_labelled world0
  ∧ well_labelled (run (collector quote_bare 60 api_State_up api_Maps_cleaned 2 fleet) world0).
Proof.
  assert (H0 : well_labelled world0).
  { intros g lvs [v Hv]. destruct g; cbn in Hv; by rewrite lookup_empty in Hv. }
  split; [exact H0|].
  exact (collector_well_labelled quote_bare 60 api_State_up api_Maps_cleaned 2 fleet world0 H0).
Defined.

Lemma labels_aligned_witness :
  ∃ ids lvs,
    batteryGauge (run (loopBody quote_bare 60 api_State_up api_Maps_cleaned robot_b) world0)
    = <[ids := float64_of_int (Charge (Neato.Details_ state_docked))]> (batteryGauge world0)
    ∧ stateGauge (run (loopBody quote_bare 60 api_State_up api_Maps_cleaned robot_b) world0)
      = <[lvs := 1%float]> (stateGauge world0)
    ∧ zip (gv_labelNames (gaugeVec BatteryGauge)) ids
      = [("name", "b"); ("serial", "sn-b"); ("model", "BotVacD7");
         ("firmware", "unknown"); ("mac", "unknown")]
    ∧ zip (gv_labelNames (gaugeVec StateGauge)) lvs
      = [("name", "b"); ("serial", "sn-b"); ("model", "BotVacD7");
         ("firmware", "unknown"); ("mac", "unknown");
         ("error", "unset"); ("alert", "dustbin_full"); ("state", "1"); ("action", "0");
         ("category", "2"); ("navigation_mode", "1"); ("is_charging", "true");
         ("is_docked", "true"); ("is_schedule_enabled", "false");
         ("dock_has_been_seen", "true"); ("charge", "87")].
Proof.
  apply (labels_aligned quote_bare 60 api_State_up api_Maps_cleaned robot_b state_docked world0).
  reflexivity.
Defined.

Lemma all_devices_polled_each_cycle_witness :
  polled (events (run (collector quote_bare 60 api_State_a_down api_Maps_none 2 fleet) world0))
  = polled (events world0) ++ concat (replicate 2 fleet).
Proof.
  apply (all_devices_polled_each_cycle quote_bare range_ascending pdqsort_id "token" fleet
           Register_ok None 60 api_State_a_down api_Maps_none fleet 2 world0).
  vm_compute. reflexivity.
Defined.
